(** * cnn/cnn.h: dimension descriptors and the expression hypergraph

    A shallow embedding of [src/cnn/cnn.h].  Values of the C++ type
    [unsigned] are numbers of [N] below [2^32], values of [unsigned short]
    are numbers of [N] below [2^16]; each conversion the header performs is
    written out as a reduction modulo the width of the target type.
    A [std::vector] is a list, indexed from 0; reading a vector outside its
    bounds is undefined behaviour in C++ and is the result [None] here. *)

From Stdlib Require Import Ascii.
From stdpp Require Import base numbers list strings pretty relations sorting.

Local Open Scope N_scope.

(** ** Machine integers *)

Definition USHRT_WIDTH : N := 16.
Definition UINT_WIDTH : N := 32.

(** Conversion of an integer value to [unsigned short]. *)
Definition to_ushort (n : N) : N := n mod 2 ^ USHRT_WIDTH.

(** Conversion of an integer value (a [size_t], for one) to [unsigned]. *)
Definition to_unsigned (n : N) : N := n mod 2 ^ UINT_WIDTH.

(** ** struct Dim *)

Module Dim.

(** [unsigned short rows; unsigned short cols;] *)
Record t : Type := mk { rows : N; cols : N }.

(** The values the two 16-bit fields can hold. *)
Definition wf (d : t) : Prop := rows d < 65536 ∧ cols d < 65536.

(** [Dim() : rows(1), cols(1) {}] *)
Definition Dim0 : t := mk (to_ushort 1) (to_ushort 1).

(** [explicit Dim(unsigned m) : rows(m), cols(1) {}] *)
Definition Dim1 (m : N) : t := mk (to_ushort m) (to_ushort 1).

(** [Dim(unsigned m, unsigned n) : rows(m), cols(n) {}] *)
Definition Dim2 (m n : N) : t := mk (to_ushort m) (to_ushort n).

(** [Dim transpose() const { return Dim(cols,rows); }] *)
Definition transpose (d : t) : t := Dim2 (cols d) (rows d).

(** [operator*]: [assert(a.cols == b.rows); return Dim(a.rows, b.cols);]
    A failed assertion aborts the program: [None]. *)
Definition mul (a b : t) : option t :=
  if cols a =? rows b then Some (Dim2 (rows a) (cols b)) else None.

(** [operator<<(std::ostream& os, const Dim& d)]:
    [return os << '(' << d.rows << ',' << d.cols << ')';]
    The stream is the text written to it so far; the two fields are
    written as integers with the formatting a stream starts with (decimal,
    no padding, no digit grouping). *)
Definition output (os : string) (d : t) : string :=
  os +:+ "(" +:+ pretty (rows d) +:+ "," +:+ pretty (cols d) +:+ ")".

End Dim.

(** ** The function identity of an edge

    [struct Edge] is an abstract class: [forward], [backward],
    [has_parameters] and [as_string] are virtual, and
    [add_function<Function>] allocates an object of the concrete class
    [Function].  The concrete classes are the inhabitants of a type
    [Function]; the virtual member functions are the methods of a class over
    it.  [Matrix] stands for [Eigen::MatrixXd], whose default-constructed
    value is the [inhabitant] of the type. *)

Class EdgeFunction (Function Matrix : Type) : Type := {
  (** [virtual Matrix forward(const std::vector<const Matrix*>& xs) const] *)
  forward_fn : Function → list Matrix → Matrix;
  (** [virtual Matrix backward(xs, fx, dEdf, i) const] *)
  backward_fn : Function → list Matrix → Matrix → Matrix → N → Matrix;
  (** [virtual bool has_parameters() const] *)
  has_parameters : Function → bool;
  (** [virtual std::string as_string(var_names) const] *)
  as_string : Function → list string → string;
  (** the edge classes that [add_parameter] and [add_input] allocate *)
  ParameterEdge : Dim.t → Function;
  InputEdge : Dim.t → Function
}.

Section Hypergraph.

Context {Function Matrix : Type} `{!Inhabited Matrix}.

(** ** struct Node *)

Record Node : Type := mkNode {
  in_edge : N;
  out_edges : list N;
  var_name : string;
  f : Matrix;
  dEdf : Matrix
}.

(** [Node(unsigned in_edge_index, const std::string& name) :
     in_edge(in_edge_index), var_name(name) {}] *)
Definition Node_new (in_edge_index : N) (name : string) : Node :=
  mkNode in_edge_index [] name inhabitant inhabitant.

(** [const std::string& variable_name() const { return var_name; }] *)
Definition variable_name (nd : Node) : string := var_name nd.

(** [out_edges.push_back(ei)] on one node *)
Definition push_out_edge (ei : N) (nd : Node) : Node :=
  mkNode (in_edge nd) (out_edges nd ++ [ei]) (var_name nd) (f nd) (dEdf nd).

(** [k] successive [out_edges.push_back(ei)] on one node *)
Definition extend_out (k : nat) (ei : N) (nd : Node) : Node :=
  mkNode (in_edge nd) (out_edges nd ++ replicate k ei)
         (var_name nd) (f nd) (dEdf nd).

(** ** struct Edge *)

Record Edge : Type := mkEdge {
  fn : Function;
  head_node : N;
  tail : list N
}.

(** [inline unsigned arity() const { return tail.size(); }] *)
Definition arity (e : Edge) : N := to_unsigned (N.of_nat (length (tail e))).

(** ** struct Hypergraph *)

Record Hypergraph : Type := mkHypergraph {
  edges : list Edge;
  nodes : list Node
}.

(** A graph as its (implicit) default constructor leaves it. *)
Definition empty_graph : Hypergraph := mkHypergraph [] [].

(** The loop of [add_function]:
    [for (auto ni : arguments) {
       new_edge->tail.push_back(ni);
       nodes[ni]->out_edges.push_back(new_edge_index); }]
    threaded over the tail of the new edge and the node vector.
    [nodes[ni]] outside the vector is undefined behaviour: [None]. *)
Fixpoint link_arguments (new_edge_index : N) (arguments : list N)
    (tl : list N) (ns : list Node) : option (list N * list Node) :=
  match arguments with
  | [] => Some (tl, ns)
  | ni :: rest =>
      match ns !! N.to_nat ni with
      | None => None
      | Some nd =>
          link_arguments new_edge_index rest (tl ++ [ni])
            (<[N.to_nat ni := push_out_edge new_edge_index nd]> ns)
      end
  end.

(** [template <class Function> unsigned Hypergraph::add_function
      (const std::initializer_list<unsigned>& arguments,
       const std::string& name)].
    The new node is pushed before the loop runs, so the loop indexes the
    extended vector.  The result is the returned index and the graph
    after the call. *)
Definition add_function (F : Function) (arguments : list N) (name : string)
    (g : Hypergraph) : option (N * Hypergraph) :=
  let new_node_index := to_unsigned (N.of_nat (length (nodes g))) in
  let new_edge_index := to_unsigned (N.of_nat (length (edges g))) in
  let nodes1 := nodes g ++ [Node_new new_edge_index name] in
  match link_arguments new_edge_index arguments [] nodes1 with
  | None => None
  | Some (tl, nodes2) =>
      Some (new_node_index,
            mkHypergraph (edges g ++ [mkEdge F new_node_index tl]) nodes2)
  end.

Context `{!EdgeFunction Function Matrix}.

(** Modelled from the spec: the body of [Hypergraph::add_parameter], which
    the header only declares.  It appends one vertex and one 0-arity edge
    that defines it, and returns the index of the new vertex. *)
Definition add_parameter (d : Dim.t) (name : string) (g : Hypergraph)
    : N * Hypergraph :=
  let new_node_index := to_unsigned (N.of_nat (length (nodes g))) in
  let new_edge_index := to_unsigned (N.of_nat (length (edges g))) in
  (new_node_index,
   mkHypergraph (edges g ++ [mkEdge (ParameterEdge d) new_node_index []])
                (nodes g ++ [Node_new new_edge_index name])).

(** Modelled from the spec: the body of [Hypergraph::add_input], which
    the header only declares.  It appends one vertex and one 0-arity edge
    that supplies an externally provided value, and returns the index of
    the new vertex. *)
Definition add_input (d : Dim.t) (name : string) (g : Hypergraph)
    : N * Hypergraph :=
  let new_node_index := to_unsigned (N.of_nat (length (nodes g))) in
  let new_edge_index := to_unsigned (N.of_nat (length (edges g))) in
  (new_node_index,
   mkHypergraph (edges g ++ [mkEdge (InputEdge d) new_node_index []])
                (nodes g ++ [Node_new new_edge_index name])).

(** ** Forward evaluation *)

(** Storing [v] in the value slot [f] of a node. *)
Definition set_f (v : Matrix) (nd : Node) : Node :=
  mkNode (in_edge nd) (out_edges nd) (var_name nd) v (dEdf nd).

(** Modelled from the spec: the values of the vertices named by a tail,
    assembled in tail order for [Edge::forward]; a tail index outside the
    vertex sequence is an error. *)
Fixpoint tail_values (ns : list Node) (tl : list N)
    : option (list Matrix) :=
  match tl with
  | [] => Some []
  | t :: rest =>
      match ns !! N.to_nat t, tail_values ns rest with
      | Some nd, Some xs => Some (f nd :: xs)
      | _, _ => None
      end
  end.

(** Modelled from the spec: the step of [Hypergraph::forward] at vertex
    [i], whose body is not in the header.  For the vertex with incoming
    edge [e], the values of [e.tail] are assembled in tail order,
    [e.forward] is invoked and the result is stored in the value slot of
    the vertex. *)
Definition forward_node (es : list Edge) (ns : list Node) (i : nat)
    : option (list Node) :=
  match ns !! i with
  | None => None
  | Some nd =>
      match es !! N.to_nat (in_edge nd) with
      | None => None
      | Some e =>
          match tail_values ns (tail e) with
          | None => None
          | Some xs => Some (<[i := set_f (forward_fn (fn e) xs) nd]> ns)
          end
      end
  end.

(** Modelled from the spec: the loop of [Hypergraph::forward], visiting
    the vertices of [order] one after the other. *)
Fixpoint forward_nodes (es : list Edge) (order : list nat) (ns : list Node)
    : option (list Node) :=
  match order with
  | [] => Some ns
  | i :: order' =>
      match forward_node es ns i with
      | Some ns' => forward_nodes es order' ns'
      | None => None
      end
  end.

(** Modelled from the spec: [Matrix Hypergraph::forward()], which the
    header only declares.  The vertices are visited in their stored
    order, every value slot is filled, and the value of the last vertex
    is returned; on the empty graph the operation is undefined. *)
Definition forward (g : Hypergraph) : option (Matrix * Hypergraph) :=
  match forward_nodes (edges g) (seq 0 (length (nodes g))) (nodes g) with
  | None => None
  | Some ns' =>
      match last ns' with
      | None => None
      | Some nd => Some (f nd, mkHypergraph (edges g) ns')
      end
  end.

(** ** Sequences of builder calls *)

Inductive builder_call : Type :=
| AddParameter (d : Dim.t) (name : string)
| AddInput (d : Dim.t) (name : string)
| AddFunction (F : Function) (arguments : list N) (name : string).

Definition call (c : builder_call) (g : Hypergraph)
    : option (N * Hypergraph) :=
  match c with
  | AddParameter d name => Some (add_parameter d name g)
  | AddInput d name => Some (add_input d name g)
  | AddFunction F arguments name => add_function F arguments name g
  end.

(** Every index the call passes names a vertex the graph already has. *)
Definition arguments_exist (c : builder_call) (g : Hypergraph) : bool :=
  match c with
  | AddFunction _ arguments _ =>
      forallb (λ ni, ni <? N.of_nat (length (nodes g))) arguments
  | _ => true
  end.

(** The graph a sequence of calls leaves, starting from [g]. *)
Fixpoint build (cs : list builder_call) (g : Hypergraph)
    : option Hypergraph :=
  match cs with
  | [] => Some g
  | c :: cs' =>
      match call c g with
      | Some (_, g') => build cs' g'
      | None => None
      end
  end.

(** Every call of the sequence passes existing indices only. *)
Fixpoint all_arguments_exist (cs : list builder_call) (g : Hypergraph)
    : bool :=
  match cs with
  | [] => true
  | c :: cs' =>
      arguments_exist c g &&
      match call c g with
      | Some (_, g') => all_arguments_exist cs' g'
      | None => false
      end
  end.

(** ** Structural properties of a graph *)

(** Vertices and edges can all be named by an [unsigned] index. *)
Definition in_unsigned_range (g : Hypergraph) : Prop :=
  N.of_nat (length (nodes g)) ≤ 2 ^ UINT_WIDTH ∧
  N.of_nat (length (edges g)) ≤ 2 ^ UINT_WIDTH.

(** Vertex [i] is defined by edge [i]: the two vectors grow together. *)
Definition indexed (g : Hypergraph) : Prop :=
  length (nodes g) = length (edges g) ∧
  (∀ (i : nat) (e : Edge), edges g !! i = Some e →
     head_node e = N.of_nat i) ∧
  (∀ (i : nat) (nd : Node), nodes g !! i = Some nd →
     in_edge nd = N.of_nat i).

Definition topological (g : Hypergraph) : Prop :=
  ∀ (i : nat) (e : Edge), edges g !! i = Some e →
    Forall (λ t, t < head_node e) (tail e).

Definition link_consistent (g : Hypergraph) : Prop :=
  (∀ (i : nat) (e : Edge) (t : N),
     edges g !! i = Some e → t ∈ tail e →
     ∃ nd, nodes g !! N.to_nat t = Some nd ∧ N.of_nat i ∈ out_edges nd) ∧
  (∀ (v : nat) (nd : Node) (j : N),
     nodes g !! v = Some nd → j ∈ out_edges nd →
     ∃ e, edges g !! N.to_nat j = Some e ∧ N.of_nat v ∈ tail e).

Definition unique_defining_edge (g : Hypergraph) : Prop :=
  (∀ (v : nat) (nd : Node), nodes g !! v = Some nd →
     ∃ e, edges g !! N.to_nat (in_edge nd) = Some e ∧
          head_node e = N.of_nat v ∧
          ∀ (j : nat) (e' : Edge), edges g !! j = Some e' →
            head_node e' = N.of_nat v → N.of_nat j = in_edge nd) ∧
  (∀ (i j : nat) (ei ej : Edge),
     edges g !! i = Some ei → edges g !! j = Some ej →
     head_node ei = head_node ej → i = j).

(** The vertices of [ns'] are those of [ns] up to their value slots. *)
Definition same_structure (ns ns' : list Node) : Prop :=
  length ns' = length ns ∧
  ∀ (i : nat) (nd : Node), ns !! i = Some nd →
    ∃ v, ns' !! i = Some (set_f v nd).

(** Vertex [i] holds what its incoming edge computes from the values of
    its tail. *)
Definition evaluated_at (es : list Edge) (ns : list Node) (i : nat)
    : Prop :=
  ∀ nd, ns !! i = Some nd →
    ∃ e xs, es !! N.to_nat (in_edge nd) = Some e ∧
            tail_values ns (tail e) = Some xs ∧
            f nd = forward_fn (fn e) xs.

Definition evaluated (g : Hypergraph) : Prop :=
  ∀ i : nat, evaluated_at (edges g) (nodes g) i.

(** The state of the forward loop over the vertices [ns0] before it
    visits vertex [k]. *)
Definition forward_progress (es : list Edge) (ns0 : list Node) (k : nat)
    (ns : list Node) : Prop :=
  same_structure ns0 ns ∧ ∀ i : nat, (i < k)%nat → evaluated_at es ns i.

(** ** Sequences of [add_function] calls *)

(** One call [add_function<F>(arguments, name)]. *)
Record function_call : Type := mkCall {
  call_function : Function;
  call_arguments : list N;
  call_name : string
}.

(** The calls of [cs] made one after the other on [g]: the indices they
    return, in call order, and the graph they leave. *)
Fixpoint add_functions (cs : list function_call) (g : Hypergraph)
    : option (list N * Hypergraph) :=
  match cs with
  | [] => Some ([], g)
  | c :: cs' =>
      match add_function (call_function c) (call_arguments c) (call_name c) g
      with
      | None => None
      | Some (r, g1) =>
          match add_functions cs' g1 with
          | None => None
          | Some (rs, g') => Some (r :: rs, g')
          end
      end
  end.

(** Every call of the sequence passes indices of vertices that exist when
    the call is made. *)
Fixpoint existing_arguments (cs : list function_call) (g : Hypergraph)
    : bool :=
  match cs with
  | [] => true
  | c :: cs' =>
      forallb (λ ni, ni <? N.of_nat (length (nodes g))) (call_arguments c) &&
      match add_function (call_function c) (call_arguments c) (call_name c) g
      with
      | Some (_, g1) => existing_arguments cs' g1
      | None => false
      end
  end.

(** Vertex [t] is an argument of the edge that defines vertex [h]. *)
Definition feeds (g : Hypergraph) (t h : N) : Prop :=
  ∃ e, e ∈ edges g ∧ head_node e = h ∧ t ∈ tail e.

(** The links agree with multiplicity: edge [j] occurs in the outgoing
    list of vertex [v] as often as [v] occurs in the tail of edge [j]. *)
Definition link_counts_agree (g : Hypergraph) : Prop :=
  ∀ (v j : nat) (nd : Node) (e : Edge),
    nodes g !! v = Some nd → edges g !! j = Some e →
    count_occ N.eq_dec (out_edges nd) (N.of_nat j)
    = count_occ N.eq_dec (tail e) (N.of_nat v).

(** Every outgoing list is in ascending order and names edges that exist
    and lie after the vertex. *)
Definition out_edges_ordered (g : Hypergraph) : Prop :=
  ∀ (v : nat) (nd : Node), nodes g !! v = Some nd →
    StronglySorted N.le (out_edges nd) ∧
    Forall (λ j, N.of_nat v < j ∧ j < N.of_nat (length (edges g)))
           (out_edges nd).

(** The number of entries of all outgoing lists, and of all tails. *)
Definition total_out_edges (ns : list Node) : nat :=
  sum_list_with (λ nd, length (out_edges nd)) ns.

Definition total_tails (es : list Edge) : nat :=
  sum_list_with (λ e, length (tail e)) es.

End Hypergraph.

Arguments Node : clear implicits.
Arguments Edge : clear implicits.
Arguments Hypergraph : clear implicits.
Arguments builder_call : clear implicits.
Arguments function_call : clear implicits.

(** ** An instance: functions of integer scalars

    Three edge classes over values in [Z], to run the definitions on
    concrete graphs: a constant, the sum and the product of the
    arguments.  A parameter holds 4 and an input supplies -3. *)

Module Scalar.

Inductive Function : Type :=
| Constant (z : Z)
| Sum
| Product.

#[global] Instance edge_function : EdgeFunction Function Z := {|
  forward_fn F xs :=
    match F with
    | Constant z => z
    | Sum => foldr Z.add 0%Z xs
    | Product => foldr Z.mul 1%Z xs
    end;
  backward_fn F xs fx dEdf i :=
    match F with
    | Constant _ => 0%Z
    | Sum => dEdf
    | Product =>
        (dEdf * foldr Z.mul 1%Z (take (N.to_nat i) xs)
              * foldr Z.mul 1%Z (drop (S (N.to_nat i)) xs))%Z
    end;
  has_parameters F := false;
  as_string F var_names :=
    match F with
    | Constant _ => "const"
    | Sum => "sum"
    | Product => "product"
    end%string;
  ParameterEdge d := Constant 4;
  InputEdge d := Constant (-3)
|}.

(** [z = x * y] over a parameter [x] and an input [y]. *)
Definition product_graph : list (builder_call Function) :=
  [AddParameter Dim.Dim0 "x"; AddInput Dim.Dim0 "y";
   AddFunction Product [0; 1] "z"].

(** [s = x + x + y]: the vertex [x] is passed twice. *)
Definition shared_graph : list (builder_call Function) :=
  [AddParameter Dim.Dim0 "x"; AddInput Dim.Dim0 "y";
   AddFunction Sum [0; 0; 1] "s"].

(** [u = x * x] and [s = u + u] over a constant [x = 3]. *)
Definition squared_calls : list (function_call Function) :=
  [mkCall (Constant 3) [] "x"; mkCall Product [0; 0] "u";
   mkCall Sum [1; 1] "s"].

(** The graph of a parameter [x] and an input [y]. *)
Definition two_inputs : Hypergraph Function Z :=
  (add_input Dim.Dim0 "y" (add_parameter Dim.Dim0 "x" empty_graph).2).2.

End Scalar.

(** * Properties *)

(** ** Machine integers *)

Lemma to_ushort_lt n : to_ushort n < 65536.
Proof. unfold to_ushort. apply N.mod_lt. discriminate. Qed.

Lemma to_ushort_small n : n < 65536 → to_ushort n = n.
Proof. intros H. unfold to_ushort. now apply N.mod_small. Qed.

Lemma to_ushort_idem n : to_ushort (to_ushort n) = to_ushort n.
Proof. apply to_ushort_small, to_ushort_lt. Qed.

Lemma to_unsigned_lt n : to_unsigned n < 4294967296.
Proof. unfold to_unsigned. apply N.mod_lt. discriminate. Qed.

Lemma to_unsigned_small n : n < 4294967296 → to_unsigned n = n.
Proof. intros H. unfold to_unsigned. now apply N.mod_small. Qed.

Lemma Dim2_wf m n : Dim.wf (Dim.Dim2 m n).
Proof. split; apply to_ushort_lt. Qed.

(** ** Dimension descriptors *)

(** C6. The product [a * b] of two dimensions passes its assertion exactly
    when [a.cols == b.rows]; it then returns the dimension
    [(a.rows, b.cols)].  When the columns of [a] differ from the rows of [b]
    the assertion fails. *)
Theorem C6_dim_product (a b : Dim.t) :
  Dim.wf a → Dim.wf b →
  (Dim.cols a = Dim.rows b →
     Dim.mul a b = Some (Dim.mk (Dim.rows a) (Dim.cols b))) ∧
  (Dim.cols a ≠ Dim.rows b → Dim.mul a b = None) ∧
  (∀ c, Dim.mul a b = Some c →
     Dim.cols a = Dim.rows b ∧ c = Dim.mk (Dim.rows a) (Dim.cols b)).
Proof.
  intros [Ha _] [_ Hb]. unfold Dim.mul.
  assert (Dim.Dim2 (Dim.rows a) (Dim.cols b)
          = Dim.mk (Dim.rows a) (Dim.cols b)) as E.
  { unfold Dim.Dim2. now rewrite !to_ushort_small. }
  rewrite E. destruct (N.eqb_spec (Dim.cols a) (Dim.rows b)) as [e|ne].
  - split; [done|]. split; [done|]. intros c [= <-]. done.
  - split; [done|]. split; [done|]. intros c [=].
Qed.

Lemma C6_dim_product_witness :
  Dim.mul (Dim.Dim2 2 3) (Dim.Dim2 3 5) = Some (Dim.mk 2 5).
Proof.
  apply (C6_dim_product (Dim.Dim2 2 3) (Dim.Dim2 3 5));
    [apply Dim2_wf | apply Dim2_wf | reflexivity].
Defined.

(** C7. The fields are 16 bits wide: a [Dim] constructed from the unsigned
    values [m] and [n] stores [m mod 2^16] and [n mod 2^16], so that no
    constructor, transposition or product yields a dimension above 65535;
    65535 itself is stored as it is and 65536 is stored as 0. *)
Theorem C7_dim_storage_limit (m n : N) :
  Dim.rows (Dim.Dim2 m n) = m mod 2 ^ 16 ∧
  Dim.cols (Dim.Dim2 m n) = n mod 2 ^ 16 ∧
  Dim.rows (Dim.Dim1 m) = m mod 2 ^ 16 ∧
  Dim.wf (Dim.Dim2 m n) ∧ Dim.wf (Dim.Dim1 m) ∧ Dim.wf Dim.Dim0 ∧
  (∀ d, Dim.wf (Dim.transpose d)) ∧
  (∀ a b c, Dim.mul a b = Some c → Dim.wf c) ∧
  (∀ d, Dim.wf d ↔ Dim.rows d ≤ 65535 ∧ Dim.cols d ≤ 65535) ∧
  Dim.Dim2 65535 65535 = Dim.mk 65535 65535 ∧
  Dim.Dim2 65536 65537 = Dim.mk 0 1.
Proof.
  split; [reflexivity|]. split; [reflexivity|]. split; [reflexivity|].
  split; [apply Dim2_wf|].
  split; [split; apply to_ushort_lt|].
  split; [split; reflexivity|].
  split; [intros d; apply Dim2_wf|].
  split.
  { intros a b c. unfold Dim.mul. destruct (_ =? _); [|done].
    intros [= <-]. apply Dim2_wf. }
  split; [intros d; unfold Dim.wf; lia|].
  split; reflexivity.
Qed.

(** C8, as the header behaves.  The default [Dim] is [(1, 1)]; for
    [m] and [n] that fit the 16-bit fields, [Dim(m)] is [(m, 1)] and
    [Dim(m, n)] is [(m, n)], while in general the stored values are
    [m mod 2^16] and [n mod 2^16]; [d.transpose()] is [(d.cols, d.rows)] for
    every [Dim] value [d]. *)
Theorem C8_dim_value_type :
  Dim.Dim0 = Dim.mk 1 1 ∧
  (∀ m, m < 65536 → Dim.Dim1 m = Dim.mk m 1) ∧
  (∀ m n, m < 65536 → n < 65536 → Dim.Dim2 m n = Dim.mk m n) ∧
  (∀ m, Dim.Dim1 m = Dim.mk (m mod 65536) 1) ∧
  (∀ m n, Dim.Dim2 m n = Dim.mk (m mod 65536) (n mod 65536)) ∧
  (∀ d, Dim.wf d → Dim.transpose d = Dim.mk (Dim.cols d) (Dim.rows d)).
Proof.
  repeat split.
  - intros m Hm. unfold Dim.Dim1. now rewrite (to_ushort_small m).
  - intros m n Hm Hn. unfold Dim.Dim2. now rewrite !to_ushort_small.
  - intros d [Hr Hc]. unfold Dim.transpose, Dim.Dim2.
    now rewrite !to_ushort_small.
Qed.

Lemma C8_dim_value_type_witness :
  Dim.Dim1 7 = Dim.mk 7 1 ∧ Dim.Dim2 3 4 = Dim.mk 3 4 ∧
  Dim.transpose (Dim.mk 3 4) = Dim.mk 4 3.
Proof.
  destruct C8_dim_value_type as (_ & H1 & H2 & _ & _ & Ht).
  split; [apply H1; reflexivity|].
  split; [apply H2; reflexivity|].
  apply (Ht (Dim.mk 3 4)). split; reflexivity.
Defined.

(** A value that does not fit 16 bits is not stored as it is:
    [Dim(65536)] is [(0, 1)], not [(65536, 1)], and [Dim(3, 65537)] is
    [(3, 1)], not [(3, 65537)]. *)
Lemma C8_dim_constructor_truncates :
  Dim.Dim1 65536 = Dim.mk 0 1 ∧ Dim.Dim1 65536 ≠ Dim.mk 65536 1 ∧
  Dim.Dim2 3 65537 = Dim.mk 3 1 ∧ Dim.Dim2 3 65537 ≠ Dim.mk 3 65537.
Proof. repeat split; discriminate. Qed.

(** C9. Transposition reverses the dimension product: when
    [a.cols == b.rows], the assertion of [b.transpose() * a.transpose()]
    holds too and that product equals [(a * b).transpose()]. *)
Theorem C9_transpose_product (a b : Dim.t) :
  Dim.cols a = Dim.rows b →
  Dim.cols (Dim.transpose b) = Dim.rows (Dim.transpose a) ∧
  ∃ c, Dim.mul a b = Some c ∧
       Dim.mul (Dim.transpose b) (Dim.transpose a) = Some (Dim.transpose c).
Proof.
  intros E. split; [simpl; now rewrite E|].
  exists (Dim.Dim2 (Dim.rows a) (Dim.cols b)). unfold Dim.mul.
  rewrite E, N.eqb_refl. split; [reflexivity|].
  unfold Dim.transpose, Dim.Dim2. simpl. rewrite E, N.eqb_refl.
  now rewrite !to_ushort_idem.
Qed.

Lemma C9_transpose_product_witness :
  ∃ c, Dim.mul (Dim.Dim2 2 3) (Dim.Dim2 3 5) = Some c ∧
       Dim.mul (Dim.transpose (Dim.Dim2 3 5)) (Dim.transpose (Dim.Dim2 2 3))
       = Some (Dim.transpose c).
Proof.
  apply (C9_transpose_product (Dim.Dim2 2 3) (Dim.Dim2 3 5)). reflexivity.
Defined.

(** ** The loop of [add_function] *)

Section HypergraphFacts.

Context {Function Matrix : Type} `{!Inhabited Matrix}.
Implicit Types (g : Hypergraph Function Matrix) (nd : Node Matrix).
Implicit Types (e : Edge Function) (ns : list (Node Matrix)).
Implicit Types (arguments tl : list N) (ni ei : N).

Lemma extend_out_0 ei nd : extend_out 0 ei nd = nd.
Proof. destruct nd. unfold extend_out. simpl. now rewrite app_nil_r. Qed.

Lemma extend_out_S k ei nd :
  extend_out (S k) ei nd = extend_out k ei (push_out_edge ei nd).
Proof. unfold extend_out, push_out_edge. simpl. now rewrite <- app_assoc. Qed.

(** The loop runs to its end exactly when every argument indexes the
    vector; it then leaves the arguments, in order, behind the tail it
    started from, keeps the length of the vector, and has pushed the edge
    index on each node once per occurrence of the node's index. *)
Lemma link_arguments_Some ei arguments : ∀ tl ns tl' ns',
  link_arguments ei arguments tl ns = Some (tl', ns') →
  Forall (λ ni, (N.to_nat ni < length ns)%nat) arguments ∧
  tl' = tl ++ arguments ∧
  length ns' = length ns ∧
  ∀ ni nd, ns !! N.to_nat ni = Some nd →
    ns' !! N.to_nat ni
    = Some (extend_out (count_occ N.eq_dec arguments ni) ei nd).
Proof.
  induction arguments as [|a rest IH]; intros tl ns tl' ns' H; simpl in H.
  - injection H as <- <-. rewrite app_nil_r.
    repeat split; [constructor|]. intros ni nd Hnd. simpl.
    now rewrite extend_out_0.
  - destruct (ns !! N.to_nat a) as [nda|] eqn:Ea; [|discriminate].
    apply IH in H as (Hall & -> & Hlen & Hlook).
    rewrite length_insert in Hall, Hlen.
    split; [constructor; [eapply lookup_lt_Some, Ea | exact Hall]|].
    split; [now rewrite <- app_assoc|]. split; [exact Hlen|].
    intros ni nd Hnd. simpl. destruct (N.eq_dec a ni) as [->|Hne].
    + rewrite Ea in Hnd. injection Hnd as ->. rewrite extend_out_S.
      apply Hlook. apply list_lookup_insert_eq. eapply lookup_lt_Some, Ea.
    + apply Hlook. rewrite list_lookup_insert_ne; [exact Hnd|].
      intros E. apply Hne. now apply N2Nat.inj.
Qed.

Lemma link_arguments_total ei arguments : ∀ tl ns,
  Forall (λ ni, (N.to_nat ni < length ns)%nat) arguments →
  is_Some (link_arguments ei arguments tl ns).
Proof.
  induction arguments as [|a rest IH]; intros tl ns Hall; simpl.
  - eauto.
  - inversion Hall as [|? ? Ha Hrest]; subst.
    apply lookup_lt_is_Some_2 in Ha as [nda Ea]. rewrite Ea.
    apply IH. now rewrite length_insert.
Qed.

(** ** One call of [add_function] *)

(** What a call that returns has done. *)
Lemma add_function_Some F arguments name g r g' :
  add_function F arguments name g = Some (r, g') →
  let new_edge_index := to_unsigned (N.of_nat (length (edges g))) in
  r = to_unsigned (N.of_nat (length (nodes g))) ∧
  edges g' = edges g ++ [mkEdge F r arguments] ∧
  length (nodes g') = S (length (nodes g)) ∧
  Forall (λ ni, (N.to_nat ni ≤ length (nodes g))%nat) arguments ∧
  ∀ ni nd,
    (nodes g ++ [Node_new new_edge_index name]) !! N.to_nat ni = Some nd →
    nodes g' !! N.to_nat ni
    = Some (extend_out (count_occ N.eq_dec arguments ni) new_edge_index nd).
Proof.
  unfold add_function. intros H.
  destruct (link_arguments _ _ _ _) as [[tl ns2]|] eqn:E; [|discriminate].
  injection H as <- <-. apply link_arguments_Some in E
    as (Hall & -> & Hlen & Hlook).
  rewrite length_app in Hall, Hlen. simpl in *.
  split; [reflexivity|]. split; [reflexivity|].
  split; [lia|]. split; [|exact Hlook].
  eapply Forall_impl; [exact Hall|]. simpl. lia.
Qed.

(** A call returns when every argument is an index of the graph, or the
    index of the node the call itself creates. *)
Lemma add_function_total F arguments name g :
  Forall (λ ni, (N.to_nat ni ≤ length (nodes g))%nat) arguments →
  is_Some (add_function F arguments name g).
Proof.
  intros Hall. unfold add_function.
  destruct (link_arguments_total
              (to_unsigned (N.of_nat (length (edges g)))) arguments []
              (nodes g ++ [Node_new
                 (to_unsigned (N.of_nat (length (edges g)))) name]))
    as [[tl ns2] E].
  - eapply Forall_impl; [exact Hall|]. simpl. intros ni Hni.
    rewrite length_app. simpl. lia.
  - rewrite E. eauto.
Qed.

(** The nodes after a call, by position: each is the node that was at
    that position once the new node had been pushed, with the index of
    the new edge appended once per occurrence of its index. *)
Lemma add_function_nodes F arguments name g r g' (v : nat) nd' :
  add_function F arguments name g = Some (r, g') →
  nodes g' !! v = Some nd' →
  let new_edge_index := to_unsigned (N.of_nat (length (edges g))) in
  ∃ nd,
    (nodes g ++ [Node_new new_edge_index name]) !! v = Some nd ∧
    nd' = extend_out (count_occ N.eq_dec arguments (N.of_nat v))
                     new_edge_index nd.
Proof.
  intros H Hv. apply add_function_Some in H as (_ & _ & Hlen & _ & Hlook).
  simpl. apply lookup_lt_Some in Hv as Hlt. rewrite Hlen in Hlt.
  destruct (lookup_lt_is_Some_2
    (nodes g ++ [Node_new (to_unsigned (N.of_nat (length (edges g)))) name])
    v) as [nd Hnd].
  { rewrite length_app. simpl. lia. }
  exists nd. split; [exact Hnd|].
  specialize (Hlook (N.of_nat v) nd). rewrite Nat2N.id in Hlook.
  rewrite (Hlook Hnd) in Hv. now injection Hv as <-.
Qed.

(** Within the range of [unsigned] the two indices a call computes are
    the sizes of the vectors. *)
Lemma add_function_in_range F arguments name g r g' :
  add_function F arguments name g = Some (r, g') →
  in_unsigned_range g' →
  r = N.of_nat (length (nodes g)) ∧
  to_unsigned (N.of_nat (length (edges g))) = N.of_nat (length (edges g)) ∧
  in_unsigned_range g.
Proof.
  intros H [Hn He]. apply add_function_Some in H as (-> & Hedges & Hlen & _).
  rewrite Hlen in Hn. rewrite Hedges, length_app in He. simpl in He.
  change (2 ^ UINT_WIDTH) with 4294967296 in *.
  split; [apply to_unsigned_small; lia|].
  split; [apply to_unsigned_small; lia|].
  split; change (2 ^ UINT_WIDTH) with 4294967296; lia.
Qed.

Lemma indexed_empty : indexed (empty_graph : Hypergraph Function Matrix).
Proof. repeat split; intros i x Hx; simpl in Hx; discriminate. Qed.

Lemma indexed_add_function F arguments name g r g' :
  indexed g →
  add_function F arguments name g = Some (r, g') →
  in_unsigned_range g' →
  indexed g'.
Proof.
  intros (Hlen & Hhead & Hin) H Hrange.
  destruct (add_function_in_range _ _ _ _ _ _ H Hrange) as (Hr & He & _).
  pose proof (add_function_Some _ _ _ _ _ _ H) as (_ & Hedges & Hlen' & _).
  split; [|split].
  - rewrite Hlen', Hedges, length_app. simpl. lia.
  - intros i e. rewrite Hedges. intros [Hold|[Hi Hnew]]%lookup_app_Some.
    + now apply Hhead.
    + apply list_lookup_singleton_Some in Hnew as [Hi0 <-]. simpl.
      rewrite Hr. f_equal. lia.
  - intros i nd' Hnd'.
    destruct (add_function_nodes _ _ _ _ _ _ _ _ H Hnd') as (nd & Hnd & ->).
    simpl. apply lookup_app_Some in Hnd as [Hold|[Hi Hnew]].
    + now apply Hin.
    + apply list_lookup_singleton_Some in Hnew as [Hi0 <-]. simpl.
      rewrite He. f_equal. lia.
Qed.

(** ** Sequences of builder calls *)

Context `{!EdgeFunction Function Matrix}.
Implicit Types (c : builder_call Function).
Implicit Types (cs : list (builder_call Function)).

(** Each builder call is a call of [add_function]; [add_parameter] and
    [add_input] pass no argument. *)
Lemma call_add_function c g :
  ∃ F arguments name,
    call c g = add_function F arguments name g ∧
    (arguments_exist c g = true →
     Forall (λ ni, ni < N.of_nat (length (nodes g))) arguments).
Proof.
  destruct c as [d name|d name|F arguments name]; simpl.
  - exists (ParameterEdge d), [], name. split; [reflexivity|constructor].
  - exists (InputEdge d), [], name. split; [reflexivity|constructor].
  - exists F, arguments, name. split; [reflexivity|].
    intros Hall. apply Is_true_true_2, forallb_True in Hall.
    eapply Forall_impl; [exact Hall|]. simpl. intros ni Hni.
    apply Is_true_true_1 in Hni. now apply N.ltb_lt.
Qed.

Lemma build_in_range cs : ∀ g g',
  build cs g = Some g' → in_unsigned_range g' → in_unsigned_range g.
Proof.
  induction cs as [|c cs IH]; intros g g' H Hrange; simpl in H.
  - now injection H as ->.
  - destruct (call c g) as [[r g1]|] eqn:E; [|discriminate].
    destruct (call_add_function c g) as (F & arguments & name & Hc & _).
    rewrite Hc in E.
    destruct (add_function_in_range _ _ _ _ _ _ E) as (_ & _ & Hg);
      [eapply IH; eassumption | exact Hg].
Qed.

(** Induction over a sequence of calls.  With [valid] the step may use
    that the arguments of the call exist in the graph it extends. *)
Lemma build_invariant (P : Hypergraph Function Matrix → Prop)
    (valid : bool) :
  (∀ F arguments name g r g',
     P g → in_unsigned_range g' →
     add_function F arguments name g = Some (r, g') →
     (valid = true →
      Forall (λ ni, ni < N.of_nat (length (nodes g))) arguments) →
     P g') →
  ∀ cs g g',
    P g → build cs g = Some g' →
    (valid = true → all_arguments_exist cs g = true) →
    in_unsigned_range g' → P g'.
Proof.
  intros Hstep. induction cs as [|c cs IH];
    intros g g' HP H Hvalid Hrange; simpl in H, Hvalid.
  - now injection H as <-.
  - destruct (call c g) as [[r g1]|] eqn:E; [|discriminate].
    destruct (call_add_function c g) as (F & arguments & name & Hc & Hex).
    rewrite Hc in E. apply (IH g1 g'); [|exact H| |exact Hrange].
    + apply (Hstep F arguments name g r g1 HP); [|exact E|].
      * eapply build_in_range; eassumption.
      * intros Hv. apply Hex. specialize (Hvalid Hv).
        now apply andb_true_iff in Hvalid as [Ha _].
    + intros Hv. specialize (Hvalid Hv).
      now apply andb_true_iff in Hvalid as [_ Ha].
Qed.

Lemma build_indexed cs g :
  build cs empty_graph = Some g → in_unsigned_range g → indexed g.
Proof.
  intros H Hrange.
  apply (build_invariant indexed false) with (cs := cs) (g := empty_graph);
    [|apply indexed_empty|exact H|discriminate|exact Hrange].
  intros F arguments name g0 r g1 HP Hr E _.
  eapply indexed_add_function; eassumption.
Qed.

Lemma build_edges_prefix cs : ∀ g g',
  build cs g = Some g' → ∃ es, edges g' = edges g ++ es.
Proof.
  induction cs as [|c cs IH]; intros g g' H; simpl in H.
  - injection H as <-. exists []. now rewrite app_nil_r.
  - destruct (call c g) as [[r g1]|] eqn:E; [|discriminate].
    destruct (call_add_function c g) as (F & arguments & name & Hc & _).
    rewrite Hc in E. apply add_function_Some in E as (_ & Hedges & _).
    apply IH in H as [es Hes]. rewrite Hes, Hedges, <- app_assoc. eauto.
Qed.

Lemma topological_add_function F arguments name g r g' :
  topological g →
  add_function F arguments name g = Some (r, g') →
  in_unsigned_range g' →
  Forall (λ ni, ni < N.of_nat (length (nodes g))) arguments →
  topological g'.
Proof.
  intros Htopo H Hrange Hex i e.
  destruct (add_function_in_range _ _ _ _ _ _ H Hrange) as (Hr & _ & _).
  apply add_function_Some in H as (_ & Hedges & _).
  rewrite Hedges. intros [Hold|[Hi Hnew]]%lookup_app_Some.
  - now apply (Htopo i).
  - apply list_lookup_singleton_Some in Hnew as [_ <-]. simpl.
    now rewrite Hr.
Qed.

Lemma link_consistent_empty :
  link_consistent (empty_graph : Hypergraph Function Matrix).
Proof. split; intros i x y Hx; simpl in Hx; discriminate. Qed.

Lemma link_consistent_add_function F arguments name g r g' :
  link_consistent g →
  add_function F arguments name g = Some (r, g') →
  in_unsigned_range g' →
  link_consistent g'.
Proof.
  intros [Hfw Hbw] H Hrange.
  destruct (add_function_in_range _ _ _ _ _ _ H Hrange) as (Hr & He & _).
  pose proof (add_function_Some _ _ _ _ _ _ H)
    as (_ & Hedges & Hlen & Hall & Hlook).
  simpl in Hlook. rewrite He in Hlook. split.
  - intros i e t. rewrite Hedges.
    intros [Hold|[Hi Hnew]]%lookup_app_Some Ht.
    + destruct (Hfw i e t Hold Ht) as (nd & Hnd & Hout).
      exists (extend_out (count_occ N.eq_dec arguments t)
                (N.of_nat (length (edges g))) nd).
      split; [apply Hlook; now apply lookup_app_l_Some|].
      simpl. apply elem_of_app. now left.
    + apply list_lookup_singleton_Some in Hnew as [Hi0 <-]. simpl in Ht.
      assert (N.to_nat t ≤ length (nodes g))%nat as Hle.
      { rewrite Forall_forall in Hall. now apply Hall. }
      destruct (lookup_lt_is_Some_2
        (nodes g ++ [Node_new (N.of_nat (length (edges g))) name])
        (N.to_nat t)) as [nd Hnd].
      { rewrite length_app. simpl. lia. }
      exists (extend_out (count_occ N.eq_dec arguments t)
                (N.of_nat (length (edges g))) nd).
      split; [apply Hlook, Hnd|].
      simpl. apply elem_of_app. right. apply elem_of_replicate.
      split; [f_equal; lia|].
      apply list_elem_of_In, (count_occ_In N.eq_dec) in Ht. lia.
  - intros v nd' j Hnd' Hj.
    destruct (add_function_nodes _ _ _ _ _ _ _ _ H Hnd') as (nd & Hnd & ->).
    simpl in Hnd, Hj. rewrite He in Hnd, Hj.
    apply elem_of_app in Hj as [Hj|Hj].
    + apply lookup_app_Some in Hnd as [Hold|[_ Hnew]].
      * destruct (Hbw v nd j Hold Hj) as (e & Hedge & Hv).
        exists e. split; [|exact Hv].
        rewrite Hedges. now apply lookup_app_l_Some.
      * apply list_lookup_singleton_Some in Hnew as [_ <-].
        simpl in Hj. now apply elem_of_nil in Hj.
    + apply elem_of_replicate in Hj as [-> Hk].
      exists (mkEdge F r arguments). rewrite Hedges, Nat2N.id. split.
      * rewrite lookup_app_r, Nat.sub_diag; [reflexivity|lia].
      * simpl. apply list_elem_of_In, (count_occ_In N.eq_dec). lia.
Qed.

Lemma indexed_unique_defining_edge g :
  indexed g → unique_defining_edge g.
Proof.
  intros (Hlen & Hhead & Hin). split.
  - intros v nd Hnd. rewrite (Hin v nd Hnd), Nat2N.id.
    destruct (lookup_lt_is_Some_2 (edges g) v) as [e He].
    { rewrite <- Hlen. eapply lookup_lt_Some, Hnd. }
    exists e. split; [exact He|]. split; [now apply Hhead|].
    intros j e' He' Hj. rewrite (Hhead j e' He') in Hj. exact Hj.
  - intros i j ei ej Hi Hj E.
    rewrite (Hhead i ei Hi), (Hhead j ej Hj) in E. now apply Nat2N.inj.
Qed.

(** ** Forward evaluation *)

Lemma set_f_set_f (v w : Matrix) nd : set_f v (set_f w nd) = set_f v nd.
Proof. reflexivity. Qed.

Lemma set_f_f nd : set_f (f nd) nd = nd.
Proof. now destruct nd. Qed.

Lemma tail_values_ext ns ns' tl :
  (∀ t, t ∈ tl → ns' !! N.to_nat t = ns !! N.to_nat t) →
  tail_values ns' tl = tail_values ns tl.
Proof.
  induction tl as [|t rest IH]; intros Hagree; simpl; [reflexivity|].
  rewrite (Hagree t), IH; [reflexivity| |apply list_elem_of_here].
  intros t' Ht'. apply Hagree. now apply list_elem_of_further.
Qed.

Lemma tail_values_total ns tl :
  Forall (λ t, (N.to_nat t < length ns)%nat) tl →
  is_Some (tail_values ns tl).
Proof.
  induction 1 as [|t rest Ht _ [xs IH]]; simpl; [eauto|].
  apply lookup_lt_is_Some_2 in Ht as [nd ->]. rewrite IH. eauto.
Qed.

Section ForwardLoop.

(** The edges and the vertices of a graph in which vertex [i] is
    defined by edge [i] and every tail index is below its head. *)
Variable es : list (Edge Function).
Variable ns0 : list (Node Matrix).
Hypothesis Hlen : length ns0 = length es.
Hypothesis Hin : ∀ (i : nat) nd, ns0 !! i = Some nd → in_edge nd = N.of_nat i.
Hypothesis Htails : ∀ (i : nat) e, es !! i = Some e →
  Forall (λ t, (N.to_nat t < i)%nat) (tail e).

Lemma forward_progress_0 : forward_progress es ns0 0 ns0.
Proof.
  split; [split; [reflexivity|]|intros i Hi; lia].
  intros i nd Hnd. exists (f nd). now rewrite set_f_f.
Qed.

Lemma forward_node_progress (k : nat) ns :
  (k < length ns0)%nat →
  forward_progress es ns0 k ns →
  ∃ ns', forward_node es ns k = Some ns' ∧
         forward_progress es ns0 (S k) ns'.
Proof.
  intros Hk [[Hlen' Hsame] Heval].
  destruct (lookup_lt_is_Some_2 ns0 k Hk) as [nd0 Hnd0].
  destruct (Hsame k nd0 Hnd0) as [v0 Hndk].
  destruct (lookup_lt_is_Some_2 es k) as [e He]; [lia|].
  pose proof (Htails k e He) as Hte.
  destruct (tail_values_total ns (tail e)) as [xs Hxs].
  { eapply Forall_impl; [exact Hte|]. simpl. lia. }
  unfold forward_node. rewrite Hndk. simpl.
  rewrite (Hin k nd0 Hnd0), Nat2N.id, He, Hxs.
  eexists. split; [reflexivity|].
  assert (∀ (i : nat) e', es !! i = Some e' → (i <= k)%nat →
            tail_values
              (<[k:=set_f (forward_fn (fn e) xs) (set_f v0 nd0)]> ns)
              (tail e')
            = tail_values ns (tail e')) as Hext.
  { intros i e' He' Hi. apply tail_values_ext. intros t Ht.
    pose proof (Htails i e' He') as Hti. rewrite Forall_forall in Hti.
    specialize (Hti t Ht). apply list_lookup_insert_ne. lia. }
  split; [split|].
  - now rewrite length_insert.
  - intros i nd Hnd. destruct (decide (i = k)) as [->|Hne].
    + rewrite Hnd0 in Hnd. injection Hnd as <-.
      exists (forward_fn (fn e) xs).
      rewrite list_lookup_insert_eq; [reflexivity|lia].
    + rewrite list_lookup_insert_ne; [|lia]. now apply Hsame.
  - intros i Hi nd. destruct (decide (i = k)) as [->|Hne].
    + rewrite list_lookup_insert_eq; [|lia]. intros [= <-].
      exists e, xs. simpl. rewrite (Hin k nd0 Hnd0), Nat2N.id.
      split; [exact He|]. split; [|reflexivity].
      rewrite (Hext k e He); [exact Hxs|lia].
    + rewrite list_lookup_insert_ne; [|lia]. intros Hnd.
      destruct (Heval i ltac:(lia) nd Hnd) as (e' & xs' & He' & Hxs' & Hf).
      exists e', xs'. split; [exact He'|]. split; [|exact Hf].
      destruct (lookup_lt_is_Some_2 ns0 i) as [ndi Hndi]; [lia|].
      destruct (Hsame i ndi Hndi) as [vi Hvi].
      rewrite Hvi in Hnd. injection Hnd as <-. simpl in He'.
      rewrite (Hin i ndi Hndi), Nat2N.id in He'.
      rewrite (Hext i e' He'); [exact Hxs'|lia].
Qed.

Lemma forward_nodes_progress (m : nat) : ∀ (k : nat) ns,
  (k + m = length ns0)%nat →
  forward_progress es ns0 k ns →
  ∃ ns', forward_nodes es (seq k m) ns = Some ns' ∧
         forward_progress es ns0 (length ns0) ns'.
Proof.
  induction m as [|m IH]; intros k ns Hkm Hprog; simpl.
  - exists ns. split; [reflexivity|].
    now replace (length ns0) with k by lia.
  - destruct (forward_node_progress k ns) as (ns1 & -> & Hprog1);
      [lia|exact Hprog|].
    apply IH; [lia|exact Hprog1].
Qed.

End ForwardLoop.

Lemma build_topological cs g :
  build cs empty_graph = Some g →
  all_arguments_exist cs empty_graph = true →
  in_unsigned_range g →
  topological g.
Proof.
  intros H Hvalid Hrange.
  apply (build_invariant topological true) with (cs := cs) (g := empty_graph);
    [|intros i e He; discriminate He|exact H|now intros _|exact Hrange].
  intros F arguments name g0 r g1 HP Hr E Hex.
  eapply topological_add_function; eauto.
Qed.

(** ** The hypergraph: main results *)

(** C1. Topological invariant.  In a graph built from the empty graph by
    builder calls whose [add_function] arguments all exist in the graph
    at the time of the call, and whose vertices and edges are within the
    range of the [unsigned] index type, every index in the tail of an edge
    is strictly less than the head of that edge.  Later builder calls keep
    the edges already there as they are: the edge vector only grows at
    its end. *)
Theorem C1_topological_invariant cs g :
  build cs empty_graph = Some g →
  all_arguments_exist cs empty_graph = true →
  in_unsigned_range g →
  topological g ∧
  (∀ cs' g', build cs' g = Some g' → ∃ es, edges g' = edges g ++ es).
Proof.
  intros H Hvalid Hrange. split; [|intros cs'; apply build_edges_prefix].
  now apply (build_topological cs).
Qed.

(** C2. Postcondition of [add_function].  A call whose arguments index
    the graph (or the vertex the call creates) returns; it appends exactly
    one vertex and one edge; the new edge has the function identity asked
    for, its head is the returned index and its tail is the argument list
    in order, so that its arity is the number of arguments; the new vertex
    names the new edge as its incoming edge; every vertex has the index of
    the new edge appended to its outgoing list once per occurrence of the
    vertex in the arguments and is otherwise unchanged; and the returned
    index is the number of vertices before the call, as an [unsigned]. *)
Theorem C2_add_function_postcondition F arguments name g :
  Forall (λ ni, ni ≤ N.of_nat (length (nodes g))) arguments →
  ∃ r g' e,
    add_function F arguments name g = Some (r, g') ∧
    length (nodes g') = S (length (nodes g)) ∧
    edges g' = edges g ++ [e] ∧
    fn e = F ∧ head_node e = r ∧ tail e = arguments ∧
    r = to_unsigned (N.of_nat (length (nodes g))) ∧
    (N.of_nat (length (nodes g)) < 2 ^ 32 →
     r = N.of_nat (length (nodes g))) ∧
    (N.of_nat (length arguments) < 2 ^ 32 →
     arity e = N.of_nat (length arguments)) ∧
    let new_edge_index := to_unsigned (N.of_nat (length (edges g))) in
    (N.of_nat (length (edges g)) < 2 ^ 32 →
     new_edge_index = N.of_nat (length (edges g))) ∧
    (∀ ni, ni ∈ arguments →
       ∃ nd', nodes g' !! N.to_nat ni = Some nd' ∧
              new_edge_index ∈ out_edges nd') ∧
    (∀ (v : nat) nd, nodes g !! v = Some nd →
       nodes g' !! v
       = Some (extend_out (count_occ N.eq_dec arguments (N.of_nat v))
                          new_edge_index nd)) ∧
    nodes g' !! length (nodes g)
    = Some (extend_out
              (count_occ N.eq_dec arguments (N.of_nat (length (nodes g))))
              new_edge_index (Node_new new_edge_index name)).
Proof.
  intros Hall.
  destruct (add_function_total F arguments name g) as [[r g'] H].
  { eapply Forall_impl; [exact Hall|]. simpl. lia. }
  pose proof (add_function_Some _ _ _ _ _ _ H)
    as (Hr & Hedges & Hlen & _ & Hlook).
  exists r, g', (mkEdge F r arguments). simpl in *.
  split; [exact H|]. split; [exact Hlen|]. split; [exact Hedges|].
  split; [reflexivity|]. split; [reflexivity|]. split; [reflexivity|].
  split; [exact Hr|].
  split; [intros Hn; rewrite Hr; now apply to_unsigned_small|].
  split; [intros Hn; unfold arity; simpl; now apply to_unsigned_small|].
  split; [intros Hn; now apply to_unsigned_small|]. split; [|split].
  - intros ni Hni.
    assert (N.to_nat ni ≤ length (nodes g))%nat as Hle.
    { rewrite Forall_forall in Hall. specialize (Hall ni Hni). lia. }
    destruct (lookup_lt_is_Some_2
      (nodes g ++ [Node_new (to_unsigned (N.of_nat (length (edges g)))) name])
      (N.to_nat ni)) as [nd Hnd].
    { rewrite length_app. simpl. lia. }
    exists (extend_out (count_occ N.eq_dec arguments ni)
              (to_unsigned (N.of_nat (length (edges g)))) nd).
    split; [apply Hlook, Hnd|]. simpl. apply elem_of_app. right.
    apply elem_of_replicate. split; [reflexivity|].
    apply list_elem_of_In, (count_occ_In N.eq_dec) in Hni. lia.
  - intros v nd Hnd. specialize (Hlook (N.of_nat v) nd).
    rewrite Nat2N.id in Hlook. apply Hlook. now apply lookup_app_l_Some.
  - specialize (Hlook (N.of_nat (length (nodes g)))).
    rewrite Nat2N.id in Hlook. apply Hlook.
    rewrite lookup_app_r, Nat.sub_diag; [reflexivity|lia].
Qed.

(** C3. Link consistency.  In a graph built from the empty graph by
    builder calls with existing argument indices, within the range of the
    index type: for every edge [e] and every index [t] in its tail, the
    index of [e] is in the outgoing list of vertex [t]; and every entry of
    a vertex's outgoing list names an edge whose tail holds that vertex. *)
Theorem C3_link_consistency cs g :
  build cs empty_graph = Some g →
  all_arguments_exist cs empty_graph = true →
  in_unsigned_range g →
  link_consistent g.
Proof.
  intros H Hvalid Hrange.
  apply (build_invariant link_consistent true)
    with (cs := cs) (g := empty_graph);
    [|apply link_consistent_empty|exact H|now intros _|exact Hrange].
  intros F arguments name g0 r g1 HP Hr E _.
  eapply link_consistent_add_function; eassumption.
Qed.

(** C4. Unique defining edge.  In a graph built from the empty graph by
    builder calls, within the range of the index type: the [in_edge] of
    every vertex names an edge whose head is that vertex, no other edge
    has that head, and no two edges share a head. *)
Theorem C4_unique_defining_edge cs g :
  build cs empty_graph = Some g →
  in_unsigned_range g →
  unique_defining_edge g.
Proof.
  intros H Hrange. apply indexed_unique_defining_edge.
  eapply build_indexed; eassumption.
Qed.

(** C5. Forward evaluation.  On a non-empty graph built from the empty
    graph by builder calls with existing argument indices, within the
    range of the index type, [forward()] returns: it leaves the edges
    and the structure of every vertex as they were, every vertex holds
    the value its incoming edge computes from the values of its tail, and
    the matrix returned is the value of the last vertex of the stored
    sequence. *)
Theorem C5_forward_returns_last cs g :
  build cs empty_graph = Some g →
  all_arguments_exist cs empty_graph = true →
  in_unsigned_range g →
  nodes g ≠ [] →
  ∃ v g',
    forward g = Some (v, g') ∧
    edges g' = edges g ∧
    same_structure (nodes g) (nodes g') ∧
    evaluated g' ∧
    ∃ nd, last (nodes g') = Some nd ∧ v = f nd.
Proof.
  intros H Hvalid Hrange Hne.
  destruct (build_indexed cs g H Hrange) as (Hlen & Hhead & Hin).
  pose proof (build_topological cs g H Hvalid Hrange) as Htopo.
  destruct (forward_nodes_progress (edges g) (nodes g) Hlen Hin)
    with (m := length (nodes g)) (k := 0%nat) (ns := nodes g)
    as (ns' & Hfw & [Hsame Heval]).
  - intros i e He. specialize (Htopo i e He).
    rewrite (Hhead i e He) in Htopo.
    eapply Forall_impl; [exact Htopo|]. simpl. lia.
  - reflexivity.
  - apply forward_progress_0, Hlen.
  - unfold forward. rewrite Hfw.
    destruct (last ns') as [nd|] eqn:Hlast.
    + exists (f nd), (mkHypergraph (edges g) ns'). simpl.
      split; [reflexivity|]. split; [reflexivity|].
      split; [exact Hsame|]. split; [|eauto].
      intros i nd' Hnd'. apply (Heval i); [|exact Hnd'].
      apply lookup_lt_Some in Hnd'. simpl in Hnd'.
      destruct Hsame as [Hl _]. lia.
    + apply last_None in Hlast. destruct Hsame as [Hl _].
      rewrite Hlast in Hl. destruct (nodes g); [done|discriminate].
Qed.

(** C10. Duplicate arguments.  When an existing vertex index occurs [k]
    times in the argument list of one [add_function] call, the tail of
    the new edge is the argument list itself, so the index occurs [k]
    times in it, at the same positions; the outgoing list of that vertex
    is extended by [k] copies of the index of the new edge; and the arity
    of the new edge is the length of the whole argument list. *)
Theorem C10_duplicate_arguments F arguments name g (ni : N) (k : nat) nd :
  Forall (λ a, a < N.of_nat (length (nodes g))) arguments →
  count_occ N.eq_dec arguments ni = k →
  nodes g !! N.to_nat ni = Some nd →
  ∃ r g' e nd',
    add_function F arguments name g = Some (r, g') ∧
    last (edges g') = Some e ∧
    tail e = arguments ∧
    count_occ N.eq_dec (tail e) ni = k ∧
    nodes g' !! N.to_nat ni = Some nd' ∧
    out_edges nd'
    = out_edges nd
      ++ replicate k (to_unsigned (N.of_nat (length (edges g)))) ∧
    (N.of_nat (length arguments) < 2 ^ 32 →
     arity e = N.of_nat (length arguments)).
Proof.
  intros Hall Hk Hnd.
  destruct (add_function_total F arguments name g) as [[r g'] H].
  { eapply Forall_impl; [exact Hall|]. simpl. lia. }
  pose proof (add_function_Some _ _ _ _ _ _ H)
    as (_ & Hedges & _ & _ & Hlook).
  exists r, g', (mkEdge F r arguments),
    (extend_out (count_occ N.eq_dec arguments ni)
                (to_unsigned (N.of_nat (length (edges g)))) nd).
  split; [exact H|]. split; [rewrite Hedges; apply last_snoc|].
  split; [reflexivity|]. split; [exact Hk|].
  split; [apply Hlook; now apply lookup_app_l_Some|].
  split; [simpl; now rewrite Hk|].
  intros Hn. unfold arity. simpl. now apply to_unsigned_small.
Qed.

End HypergraphFacts.

(** ** The results on concrete graphs *)

Lemma C1_topological_invariant_witness :
  ∃ g : Hypergraph Scalar.Function Z,
    build Scalar.product_graph empty_graph = Some g ∧ topological g.
Proof.
  eexists. split; [reflexivity|].
  refine (proj1 (C1_topological_invariant Scalar.product_graph _ _ _ _));
    [reflexivity | reflexivity | split; vm_compute; discriminate].
Defined.

Lemma C2_add_function_postcondition_witness :
  ∃ r g', add_function Scalar.Sum [0; 0; 1] "s" Scalar.two_inputs
          = Some (r, g') ∧
          r = 2 ∧ length (nodes g') = 3%nat.
Proof.
  destruct (C2_add_function_postcondition
              Scalar.Sum [0; 0; 1] "s" Scalar.two_inputs)
    as (r & g' & e & H & Hlen & _ & _ & _ & _ & _ & Hr & _).
  - repeat constructor; vm_compute; discriminate.
  - exists r, g'. split; [exact H|]. split; [|exact Hlen].
    apply Hr. reflexivity.
Defined.

Lemma C3_link_consistency_witness :
  ∃ g : Hypergraph Scalar.Function Z,
    build Scalar.shared_graph empty_graph = Some g ∧ link_consistent g.
Proof.
  eexists. split; [reflexivity|].
  apply (C3_link_consistency Scalar.shared_graph);
    [reflexivity | reflexivity | split; vm_compute; discriminate].
Defined.

Lemma C4_unique_defining_edge_witness :
  ∃ g : Hypergraph Scalar.Function Z,
    build Scalar.shared_graph empty_graph = Some g ∧
       unique_defining_edge g.
Proof.
  eexists. split; [reflexivity|].
  apply (C4_unique_defining_edge Scalar.shared_graph);
    [reflexivity | split; vm_compute; discriminate].
Defined.

Lemma C5_forward_returns_last_witness :
  ∃ g : Hypergraph Scalar.Function Z,
    build Scalar.product_graph empty_graph = Some g ∧
       ∃ v g', forward g = Some (v, g') ∧ evaluated g' ∧
               ∃ nd, last (nodes g') = Some nd ∧ v = f nd.
Proof.
  eexists. split; [reflexivity|].
  destruct (C5_forward_returns_last Scalar.product_graph _
              eq_refl eq_refl) as (v & g' & H & _ & _ & Hev & Hlast).
  - split; vm_compute; discriminate.
  - discriminate.
  - exists v, g'. split; [exact H|]. split; [exact Hev|exact Hlast].
Defined.

Lemma C10_duplicate_arguments_witness :
  ∃ r g' e nd',
    add_function Scalar.Sum [0; 0; 1] "s" Scalar.two_inputs = Some (r, g') ∧
    last (edges g') = Some e ∧ tail e = [0; 0; 1] ∧
    nodes g' !! 0%nat = Some nd' ∧ out_edges nd' = [2; 2].
Proof.
  destruct (C10_duplicate_arguments
              Scalar.Sum [0; 0; 1] "s" Scalar.two_inputs 0 2
              (Node_new 0 "x"))
    as (r & g' & e & nd' & H & Hlast & Htl & _ & Hnd' & Hout & _).
  - repeat constructor; vm_compute; reflexivity.
  - reflexivity.
  - reflexivity.
  - exists r, g', e, nd'. split; [exact H|]. split; [exact Hlast|].
    split; [exact Htl|]. split; [exact Hnd'|exact Hout].
Defined.

(** * Further properties of the header *)

(** ** Dimension descriptors *)

(** X1. Transposing twice gives the dimension back, for every [Dim] value
    (fields within 16 bits). *)
Theorem X1_transpose_involutive (d : Dim.t) :
  Dim.wf d → Dim.transpose (Dim.transpose d) = d.
Proof.
  destruct d as [r c]. intros [Hr Hc]. simpl in *.
  unfold Dim.transpose, Dim.Dim2. simpl.
  now rewrite !to_ushort_idem, !to_ushort_small.
Qed.

Lemma X1_transpose_involutive_witness :
  Dim.transpose (Dim.transpose (Dim.mk 3 4)) = Dim.mk 3 4.
Proof. apply (X1_transpose_involutive (Dim.mk 3 4)). split; reflexivity. Defined.

(** X2. The dimension product is associative, failures included: for [Dim]
    values [a], [b], [c], computing [(a * b) * c] and [a * (b * c)] either
    both fail an assertion or both give the same dimension. *)
Theorem X2_dim_product_assoc (a b c : Dim.t) :
  Dim.wf a → Dim.wf b → Dim.wf c →
  (Dim.mul a b ≫= λ ab, Dim.mul ab c) = (Dim.mul b c ≫= λ bc, Dim.mul a bc).
Proof.
  destruct a as [ra ca], b as [rb cb], c as [rc cc].
  intros [Hra Hca] [Hrb Hcb] [Hrc Hcc]. unfold Dim.mul, Dim.Dim2. simpl in *.
  destruct (N.eqb_spec ca rb) as [E1|N1], (N.eqb_spec cb rc) as [E2|N2];
    simpl;
    repeat match goal with
    | |- context [to_ushort ?x] => rewrite (to_ushort_small x) by assumption
    end.
  - destruct (N.eqb_spec cb rc), (N.eqb_spec ca rb); congruence.
  - destruct (N.eqb_spec cb rc); congruence.
  - destruct (N.eqb_spec ca rb); congruence.
  - reflexivity.
Qed.

Lemma X2_dim_product_assoc_witness :
  (Dim.mul (Dim.mk 2 3) (Dim.mk 3 4) ≫= λ ab, Dim.mul ab (Dim.mk 4 5))
  = (Dim.mul (Dim.mk 3 4) (Dim.mk 4 5) ≫= λ bc, Dim.mul (Dim.mk 2 3) bc).
Proof.
  apply (X2_dim_product_assoc (Dim.mk 2 3) (Dim.mk 3 4) (Dim.mk 4 5));
    split; reflexivity.
Defined.

(** X3. The assertion of the product compares the stored 16-bit values:
    the product of [Dim(m, n)] and [Dim(p, q)] is defined exactly when [n]
    and [p] agree modulo 2^16, and is then [Dim(m, q)].  So
    [Dim(2, 65539) * Dim(3, 5)] passes the assertion and gives [(2, 5)]. *)
Theorem X3_dim_product_truncated (m n p q : N) :
  (is_Some (Dim.mul (Dim.Dim2 m n) (Dim.Dim2 p q))
   ↔ n mod 2 ^ 16 = p mod 2 ^ 16) ∧
  (∀ c, Dim.mul (Dim.Dim2 m n) (Dim.Dim2 p q) = Some c → c = Dim.Dim2 m q) ∧
  Dim.mul (Dim.Dim2 2 65539) (Dim.Dim2 3 5) = Some (Dim.mk 2 5).
Proof.
  unfold Dim.mul. simpl. change (2 ^ 16) with (2 ^ USHRT_WIDTH).
  fold (to_ushort n) (to_ushort p).
  destruct (N.eqb_spec (to_ushort n) (to_ushort p)) as [E|NE].
  - split; [split; [done|eauto]|]. split; [|reflexivity].
    intros c [= <-]. unfold Dim.Dim2. now rewrite !to_ushort_idem.
  - split; [split; [intros [c Hc]; discriminate|done]|].
    split; [|reflexivity]. intros c [=].
Qed.

(** X4. A dimension can always be multiplied with its transpose, on either
    side, and the result is square: [a * a.transpose()] is
    [(a.rows, a.rows)] and [a.transpose() * a] is [(a.cols, a.cols)]. *)
Theorem X4_dim_product_with_transpose (a : Dim.t) :
  Dim.wf a →
  Dim.mul a (Dim.transpose a) = Some (Dim.mk (Dim.rows a) (Dim.rows a)) ∧
  Dim.mul (Dim.transpose a) a = Some (Dim.mk (Dim.cols a) (Dim.cols a)).
Proof.
  destruct a as [r c]. intros [Hr Hc]. simpl in *.
  unfold Dim.mul, Dim.transpose, Dim.Dim2. simpl.
  repeat match goal with
  | |- context [to_ushort ?x] => rewrite (to_ushort_small x) by assumption
  end.
  now rewrite !N.eqb_refl.
Qed.

Lemma X4_dim_product_with_transpose_witness :
  Dim.mul (Dim.mk 3 4) (Dim.transpose (Dim.mk 3 4)) = Some (Dim.mk 3 3).
Proof.
  apply (X4_dim_product_with_transpose (Dim.mk 3 4)). split; reflexivity.
Defined.

(** *** Rendering *)

Lemma string_app_inj_l (s t1 t2 : string) : s +:+ t1 = s +:+ t2 → t1 = t2.
Proof. induction s as [|a s IH]; simpl; [done|]. intros [= H]. auto. Qed.

(** Two texts that agree and are cut at the first occurrence of a
    character agree on both sides of the cut. *)
Lemma string_cut_inj (c : ascii) : ∀ s1 s2 t1 t2 : string,
  ¬ In c (String.list_ascii_of_string s1) →
  ¬ In c (String.list_ascii_of_string s2) →
  s1 +:+ String c t1 = s2 +:+ String c t2 →
  s1 = s2 ∧ t1 = t2.
Proof.
  induction s1 as [|a s1 IH]; intros [|b s2] t1 t2 H1 H2; simpl in *.
  - intros [= ->]. done.
  - intros [= -> _]. destruct H2. now left.
  - intros [= -> _]. destruct H1. now left.
  - intros [= -> E]. destruct (IH s2 t1 t2) as [-> ->]; auto.
Qed.

(** The decimal digits of a number hold no other character. *)
Lemma pretty_N_go_chars (c : ascii) (x : N) : ∀ s : string,
  (∀ d, pretty_N_char d ≠ c) →
  ¬ In c (String.list_ascii_of_string s) →
  ¬ In c (String.list_ascii_of_string (pretty_N_go x s)).
Proof.
  induction (N.lt_wf_0 x) as [x _ IH]. intros s Hc Hs.
  assert (x = 0 ∨ 0 < x) as [->|Hx] by lia.
  - now rewrite pretty_N_go_0.
  - rewrite pretty_N_go_step by done. apply IH; [now apply N.div_lt|done|].
    simpl. intros [E|E]; [now apply (Hc (x `mod` 10))|done].
Qed.

Lemma pretty_N_chars (c : ascii) (x : N) :
  (∀ d, pretty_N_char d ≠ c) →
  ¬ In c (String.list_ascii_of_string (pretty x)).
Proof.
  intros Hc. unfold pretty, pretty_N. case_decide.
  - simpl. intros [E|[]]. now apply (Hc 0).
  - apply pretty_N_go_chars; [exact Hc|]. simpl. tauto.
Qed.

Lemma pretty_N_char_not_comma d : pretty_N_char d ≠ ","%char.
Proof. unfold pretty_N_char. repeat case_match; discriminate. Qed.

Lemma pretty_N_char_not_paren d : pretty_N_char d ≠ ")"%char.
Proof. unfold pretty_N_char. repeat case_match; discriminate. Qed.

(** X5. The rendering [(rows,cols)] written by [operator<<] determines the
    dimension: two dimensions written to the same stream leave the same
    text only if they are equal. *)
Theorem X5_dim_output_injective (os : string) (d1 d2 : Dim.t) :
  Dim.output os d1 = Dim.output os d2 → d1 = d2.
Proof.
  destruct d1 as [r1 c1], d2 as [r2 c2]. unfold Dim.output. simpl.
  intros H. apply string_app_inj_l in H. injection H as H.
  apply string_cut_inj in H as [Hr H];
    [|apply pretty_N_chars, pretty_N_char_not_comma..].
  apply string_cut_inj in H as [Hc _];
    [|apply pretty_N_chars, pretty_N_char_not_paren..].
  apply (inj pretty) in Hr, Hc. now subst.
Qed.

Lemma X5_dim_output_injective_witness :
  Dim.output "d = " (Dim.Dim2 3 4) = "d = (3,4)"%string ∧
  Dim.Dim2 3 4 = Dim.transpose (Dim.Dim2 4 3).
Proof.
  split; [reflexivity|].
  apply (X5_dim_output_injective "d = "). reflexivity.
Defined.

(** ** Calls of [add_function] *)

Section AddFunctionFacts.

Context {Function Matrix : Type} `{!Inhabited Matrix}.
Implicit Types (g : Hypergraph Function Matrix) (nd : Node Matrix).
Implicit Types (e : Edge Function) (ns : list (Node Matrix)).
Implicit Types (arguments : list N) (ni : N).
Implicit Types (c : function_call Function).
Implicit Types (cs : list (function_call Function)).

(** X6. A call of [add_function] stays within the node vector exactly when
    every argument is at most the number of vertices before the call: an
    index of the graph, or the index of the vertex the call creates.  Any
    larger argument makes [nodes[ni]] an access outside the vector. *)
Theorem X6_add_function_defined_iff F arguments name g :
  is_Some (add_function F arguments name g)
  ↔ Forall (λ ni, ni ≤ N.of_nat (length (nodes g))) arguments.
Proof.
  split.
  - intros [[r g'] H]. apply add_function_Some in H as (_ & _ & _ & Hall & _).
    eapply Forall_impl; [exact Hall|]. simpl. lia.
  - intros Hall. apply add_function_total.
    eapply Forall_impl; [exact Hall|]. simpl. lia.
Qed.

(** X7. [add_function] does not check that its arguments exist.  Passing
    the index the call is about to return is within bounds, because the new
    node is pushed before the loop: the call returns an edge whose tail
    holds its own head, the new vertex lists its defining edge among its
    outgoing edges, and the graph is not topologically ordered. *)
Theorem X7_add_function_self_reference F arguments name g :
  N.of_nat (length (nodes g)) < 2 ^ 32 →
  Forall (λ ni, ni ≤ N.of_nat (length (nodes g))) arguments →
  N.of_nat (length (nodes g)) ∈ arguments →
  ∃ r g' e nd,
    add_function F arguments name g = Some (r, g') ∧
    last (edges g') = Some e ∧ head_node e ∈ tail e ∧
    nodes g' !! N.to_nat r = Some nd ∧ in_edge nd ∈ out_edges nd ∧
    ¬ topological g'.
Proof.
  intros Hn Hall Hself.
  destruct (add_function_total F arguments name g) as [[r g'] H].
  { eapply Forall_impl; [exact Hall|]. simpl. lia. }
  pose proof (add_function_Some _ _ _ _ _ _ H)
    as (Hr & Hedges & _ & _ & Hlook).
  rewrite to_unsigned_small in Hr by exact Hn. simpl in Hlook. subst r.
  assert (nodes g' !! length (nodes g)
          = Some (extend_out
                    (count_occ N.eq_dec arguments
                       (N.of_nat (length (nodes g))))
                    (to_unsigned (N.of_nat (length (edges g))))
                    (Node_new (to_unsigned (N.of_nat (length (edges g))))
                              name))) as Hnew.
  { specialize (Hlook (N.of_nat (length (nodes g)))).
    rewrite Nat2N.id in Hlook. apply Hlook.
    rewrite lookup_app_r, Nat.sub_diag; [reflexivity|lia]. }
  exists (N.of_nat (length (nodes g))), g',
    (mkEdge F (N.of_nat (length (nodes g))) arguments),
    (extend_out (count_occ N.eq_dec arguments (N.of_nat (length (nodes g))))
       (to_unsigned (N.of_nat (length (edges g))))
       (Node_new (to_unsigned (N.of_nat (length (edges g)))) name)).
  split; [exact H|]. split; [rewrite Hedges; apply last_snoc|].
  split; [exact Hself|]. split; [rewrite Nat2N.id; exact Hnew|]. split.
  - simpl. apply elem_of_replicate. split; [reflexivity|].
    apply list_elem_of_In, (count_occ_In N.eq_dec) in Hself. lia.
  - intros Htopo.
    specialize (Htopo (length (edges g))
                  (mkEdge F (N.of_nat (length (nodes g))) arguments)).
    rewrite Hedges, lookup_app_r, Nat.sub_diag in Htopo by lia.
    specialize (Htopo eq_refl). simpl in Htopo.
    rewrite Forall_forall in Htopo. specialize (Htopo _ Hself). lia.
Qed.

(** *** Sequences of calls *)

Lemma add_functions_cons c cs g rs g' :
  add_functions (c :: cs) g = Some (rs, g') →
  ∃ r g1 rs',
    add_function (call_function c) (call_arguments c) (call_name c) g
    = Some (r, g1) ∧
    add_functions cs g1 = Some (rs', g') ∧ rs = r :: rs'.
Proof.
  simpl. destruct (add_function _ _ _ g) as [[r g1]|]; [|discriminate].
  destruct (add_functions cs g1) as [[rs' g2]|] eqn:E; [|discriminate].
  intros [= <- <-]. exists r, g1, rs'. done.
Qed.

Lemma add_functions_in_range cs : ∀ g rs g',
  add_functions cs g = Some (rs, g') →
  in_unsigned_range g' → in_unsigned_range g.
Proof.
  induction cs as [|c cs IH]; intros g rs g' H Hrange.
  - simpl in H. now injection H as _ ->.
  - apply add_functions_cons in H as (r & g1 & rs' & H1 & H2 & _).
    destruct (add_function_in_range _ _ _ _ _ _ H1) as (_ & _ & Hg);
      [eapply IH; eassumption | exact Hg].
Qed.

(** Induction over a sequence of calls; with [valid] the step may use that
    the arguments of the call exist in the graph it extends. *)
Lemma add_functions_invariant (P : Hypergraph Function Matrix → Prop)
    (valid : bool) :
  (∀ F arguments name g r g',
     P g → in_unsigned_range g' →
     add_function F arguments name g = Some (r, g') →
     (valid = true →
      Forall (λ ni, ni < N.of_nat (length (nodes g))) arguments) →
     P g') →
  ∀ cs g rs g',
    P g → add_functions cs g = Some (rs, g') →
    (valid = true → existing_arguments cs g = true) →
    in_unsigned_range g' → P g'.
Proof.
  intros Hstep. induction cs as [|c cs IH];
    intros g rs g' HP H Hvalid Hrange.
  - simpl in H. now injection H as _ <-.
  - apply add_functions_cons in H as (r & g1 & rs' & H1 & H2 & _).
    simpl in Hvalid. rewrite H1 in Hvalid.
    apply (IH g1 rs' g'); [|exact H2| |exact Hrange].
    + apply (Hstep (call_function c) (call_arguments c) (call_name c)
                   g r g1 HP); [|exact H1|].
      * eapply add_functions_in_range; eassumption.
      * intros Hv. specialize (Hvalid Hv).
        apply andb_true_iff in Hvalid as [Ha _].
        apply Is_true_true_2, forallb_True in Ha.
        eapply Forall_impl; [exact Ha|]. simpl. intros ni Hni.
        apply Is_true_true_1 in Hni. now apply N.ltb_lt.
    + intros Hv. specialize (Hvalid Hv).
      now apply andb_true_iff in Hvalid as [_ Ha].
Qed.

(** The nodes after a call, seen through a field the loop does not
    write. *)
Lemma add_function_nodes_fmap {A} (h : Node Matrix → A)
    F arguments name g r g' :
  (∀ k ei nd, h (extend_out k ei nd) = h nd) →
  add_function F arguments name g = Some (r, g') →
  h <$> nodes g'
  = (h <$> nodes g)
    ++ [h (Node_new (to_unsigned (N.of_nat (length (edges g)))) name)].
Proof.
  intros Hh H. change [h (Node_new ?ei name)] with (h <$> [Node_new ei name]).
  rewrite <- fmap_app. apply list_eq. intros i. rewrite !list_lookup_fmap.
  destruct (nodes g' !! i) as [nd'|] eqn:E.
  - destruct (add_function_nodes _ _ _ _ _ _ _ _ H E) as (nd & -> & ->).
    simpl. now rewrite Hh.
  - apply add_function_Some in H as (_ & _ & Hlen & _).
    apply lookup_ge_None in E. rewrite lookup_ge_None_2; [reflexivity|].
    rewrite length_app. simpl. lia.
Qed.

Lemma add_functions_indices cs : ∀ g rs g',
  add_functions cs g = Some (rs, g') →
  in_unsigned_range g' →
  rs = N.of_nat <$> seq (length (nodes g)) (length cs) ∧
  length (nodes g') = (length (nodes g) + length cs)%nat ∧
  length (edges g') = (length (edges g) + length cs)%nat.
Proof.
  induction cs as [|c cs IH]; intros g rs g' H Hrange.
  - simpl in H. injection H as <- <-. simpl. split; [done|lia].
  - apply add_functions_cons in H as (r & g1 & rs' & H1 & H2 & ->).
    destruct (IH _ _ _ H2 Hrange) as (-> & Hn & He).
    pose proof (add_functions_in_range _ _ _ _ H2 Hrange) as Hrange1.
    destruct (add_function_in_range _ _ _ _ _ _ H1 Hrange1) as (-> & _ & _).
    apply add_function_Some in H1 as (_ & Hedges & Hlen & _).
    rewrite Hn, He, Hlen, Hedges, length_app. simpl.
    split; [reflexivity|lia].
Qed.

Lemma add_functions_record cs : ∀ g rs g',
  add_functions cs g = Some (rs, g') →
  in_unsigned_range g' →
  edges g'
  = edges g
    ++ imap (λ i c, mkEdge (call_function c)
                           (N.of_nat (length (nodes g) + i))
                           (call_arguments c)) cs ∧
  var_name <$> nodes g' = (var_name <$> nodes g) ++ (call_name <$> cs) ∧
  f <$> nodes g' = (f <$> nodes g) ++ replicate (length cs) inhabitant ∧
  dEdf <$> nodes g' = (dEdf <$> nodes g) ++ replicate (length cs) inhabitant.
Proof.
  induction cs as [|c cs IH]; intros g rs g' H Hrange.
  - simpl in H. injection H as _ <-. simpl. now rewrite !app_nil_r.
  - apply add_functions_cons in H as (r & g1 & rs' & H1 & H2 & ->).
    destruct (IH _ _ _ H2 Hrange) as (Hedges' & Hnames & Hf & HdEdf).
    pose proof (add_functions_in_range _ _ _ _ H2 Hrange) as Hrange1.
    destruct (add_function_in_range _ _ _ _ _ _ H1 Hrange1) as (-> & _ & _).
    rewrite Hedges', Hnames, Hf, HdEdf.
    rewrite (add_function_nodes_fmap var_name _ _ _ _ _ _ (λ _ _ _, eq_refl) H1).
    rewrite (add_function_nodes_fmap f _ _ _ _ _ _ (λ _ _ _, eq_refl) H1).
    rewrite (add_function_nodes_fmap dEdf _ _ _ _ _ _ (λ _ _ _, eq_refl) H1).
    apply add_function_Some in H1 as (_ & Hedges & Hlen & _).
    rewrite Hedges, Hlen, <- !app_assoc. simpl.
    rewrite Nat.add_0_r. repeat split. do 2 f_equal.
    apply imap_ext. intros i x _. simpl. f_equal. lia.
Qed.

(** X8. Handles are dense and issued in call order: a sequence of [n]
    calls on the empty graph returns the indices [0, 1, ..., n-1] and
    leaves [n] vertices and [n] edges (within the range of [unsigned]). *)
Theorem X8_add_functions_dense_indices cs rs g :
  add_functions cs empty_graph = Some (rs, g) →
  in_unsigned_range g →
  rs = N.of_nat <$> seq 0 (length cs) ∧
  length (nodes g) = length cs ∧ length (edges g) = length cs.
Proof. intros H Hrange. exact (add_functions_indices cs _ _ _ H Hrange). Qed.

(** X9. The graph records the calls that built it.  After a sequence of
    calls on the empty graph, edge [i] carries the function class and the
    argument list of call [i] and has head [i]; [variable_name] of vertex
    [i] is the name passed to call [i]; and the value and gradient slots of
    every vertex are still default-constructed. *)
Theorem X9_add_functions_record cs rs g :
  add_functions cs empty_graph = Some (rs, g) →
  in_unsigned_range g →
  edges g = imap (λ i c, mkEdge (call_function c) (N.of_nat i)
                                 (call_arguments c)) cs ∧
  variable_name <$> nodes g = call_name <$> cs ∧
  f <$> nodes g = replicate (length cs) inhabitant ∧
  dEdf <$> nodes g = replicate (length cs) inhabitant.
Proof. intros H Hrange. exact (add_functions_record cs _ _ _ H Hrange). Qed.

Lemma add_functions_stable cs : ∀ g rs g',
  add_functions cs g = Some (rs, g') →
  (∃ es, edges g' = edges g ++ es) ∧
  ∀ (v : nat) nd, nodes g !! v = Some nd →
    ∃ more,
      nodes g' !! v
      = Some (mkNode (in_edge nd) (out_edges nd ++ more) (var_name nd)
                     (f nd) (dEdf nd)).
Proof.
  induction cs as [|c cs IH]; intros g rs g' H.
  - simpl in H. injection H as _ <-. split.
    + exists []. now rewrite app_nil_r.
    + intros v nd Hnd. exists []. rewrite app_nil_r. now destruct nd.
  - apply add_functions_cons in H as (r & g1 & rs' & H1 & H2 & _).
    destruct (IH _ _ _ H2) as [[es Hes] Hnodes].
    apply add_function_Some in H1 as (_ & Hedges & _ & _ & Hlook). split.
    + rewrite Hes, Hedges, <- app_assoc. eauto.
    + intros v nd Hnd. specialize (Hlook (N.of_nat v) nd).
      rewrite Nat2N.id in Hlook.
      destruct (Hnodes v _ (Hlook (lookup_app_l_Some _ _ _ _ Hnd)))
        as [more Hmore].
      simpl in Hmore. rewrite <- app_assoc in Hmore. eauto.
Qed.

(** X10. Handles are stable.  Further calls leave every edge as it is and
    change a vertex only by appending to its outgoing list: its defining
    edge, its name and its value and gradient slots stay as they are. *)
Theorem X10_add_functions_stable cs g rs g' :
  add_functions cs g = Some (rs, g') →
  (∃ es, edges g' = edges g ++ es) ∧
  ∀ (v : nat) nd, nodes g !! v = Some nd →
    ∃ more,
      nodes g' !! v
      = Some (mkNode (in_edge nd) (out_edges nd ++ more) (var_name nd)
                     (f nd) (dEdf nd)).
Proof. apply add_functions_stable. Qed.

(** *** Links with multiplicity *)

Lemma count_occ_replicate (k : nat) (a x : N) :
  count_occ N.eq_dec (replicate k a) x = if decide (a = x) then k else 0%nat.
Proof.
  induction k as [|k IH]; simpl; [now case_decide|].
  destruct (N.eq_dec a x); case_decide; try done; now rewrite IH.
Qed.

Lemma count_occ_0 (l : list N) (x : N) :
  x ∉ l → count_occ N.eq_dec l x = 0%nat.
Proof. rewrite list_elem_of_In. apply count_occ_not_In. Qed.

Lemma link_counts_agree_add_function F arguments name g r g' :
  link_consistent g → link_counts_agree g →
  add_function F arguments name g = Some (r, g') →
  in_unsigned_range g' →
  link_counts_agree g'.
Proof.
  intros [Hfw Hbw] Hcount H Hrange v j nd' e' Hnd' He'.
  destruct (add_function_in_range _ _ _ _ _ _ H Hrange) as (Hr & He & _).
  destruct (add_function_nodes _ _ _ _ _ _ _ _ H Hnd') as (nd & Hnd & ->).
  apply add_function_Some in H as (_ & Hedges & _).
  simpl in *. rewrite He in *. rewrite Hedges in He'.
  rewrite count_occ_app, count_occ_replicate.
  apply lookup_app_Some in He' as [Hold|[Hj Hnew]].
  - assert (N.of_nat (length (edges g)) ≠ N.of_nat j) as Hne.
    { apply lookup_lt_Some in Hold. lia. }
    rewrite decide_False by exact Hne.
    apply lookup_app_Some in Hnd as [Hv|[Hv Hnode]].
    + rewrite (Hcount v j nd e' Hv Hold). lia.
    + apply list_lookup_singleton_Some in Hnode as [Hv0 <-]. simpl.
      symmetry. apply count_occ_0. intros Hin.
      destruct (Hfw j e' _ Hold Hin) as (nd0 & Hnd0 & _).
      rewrite Nat2N.id in Hnd0. apply lookup_lt_Some in Hnd0. lia.
  - apply list_lookup_singleton_Some in Hnew as [Hj0 <-]. simpl.
    assert (N.of_nat (length (edges g)) = N.of_nat j) as Heq by (f_equal; lia).
    rewrite decide_True by exact Heq. rewrite <- Heq.
    apply lookup_app_Some in Hnd as [Hv|[Hv Hnode]].
    + rewrite count_occ_0; [reflexivity|]. intros Hin.
      destruct (Hbw v nd _ Hv Hin) as (e0 & He0 & _).
      rewrite Nat2N.id in He0. apply lookup_lt_Some in He0. lia.
    + apply list_lookup_singleton_Some in Hnode as [Hv0 <-]. reflexivity.
Qed.

Lemma add_functions_link_counts cs rs g :
  add_functions cs empty_graph = Some (rs, g) →
  in_unsigned_range g →
  link_consistent g ∧ link_counts_agree g.
Proof.
  intros H Hrange.
  apply (add_functions_invariant
           (λ g, link_consistent g ∧ link_counts_agree g) false)
    with (cs := cs) (g := empty_graph) (rs := rs);
    [| |exact H|discriminate|exact Hrange].
  - intros F arguments name g0 r g1 [Hl Hc] Hr E _. split.
    + eapply link_consistent_add_function; eassumption.
    + eapply link_counts_agree_add_function; eassumption.
  - split; [split|]; intros ? ? ? ? Hx; simpl in Hx; discriminate.
Qed.

(** X11. Links agree with multiplicity.  In a graph built by calls of
    [add_function] on the empty graph, edge [j] occurs in the outgoing list
    of vertex [v] exactly as many times as [v] occurs in the tail of edge
    [j] (within the range of [unsigned]). *)
Theorem X11_link_counts_agree cs rs g :
  add_functions cs empty_graph = Some (rs, g) →
  in_unsigned_range g →
  link_counts_agree g.
Proof. intros H Hrange. now apply (add_functions_link_counts cs rs g). Qed.

(** *** Counting links *)

Lemma total_out_edges_insert ei : ∀ ns (i : nat) nd,
  ns !! i = Some nd →
  total_out_edges (<[i:=push_out_edge ei nd]> ns) = S (total_out_edges ns).
Proof.
  unfold total_out_edges.
  induction ns as [|a ns IH]; intros [|i] nd Hnd; simpl in *; try discriminate.
  - injection Hnd as ->. rewrite length_app. simpl. lia.
  - rewrite (IH i nd Hnd). lia.
Qed.

Lemma link_arguments_total_out ei arguments : ∀ tl ns tl' ns',
  link_arguments ei arguments tl ns = Some (tl', ns') →
  total_out_edges ns' = (total_out_edges ns + length arguments)%nat.
Proof.
  induction arguments as [|a rest IH]; intros tl ns tl' ns' H; simpl in H.
  - injection H as _ <-. simpl. lia.
  - destruct (ns !! N.to_nat a) as [nda|] eqn:Ea; [|discriminate].
    apply IH in H. rewrite H, (total_out_edges_insert ei ns _ nda Ea).
    simpl. lia.
Qed.

Lemma add_function_totals F arguments name g r g' :
  add_function F arguments name g = Some (r, g') →
  total_out_edges (nodes g')
  = (total_out_edges (nodes g) + length arguments)%nat ∧
  total_tails (edges g') = (total_tails (edges g) + length arguments)%nat.
Proof.
  intros H. pose proof (add_function_Some _ _ _ _ _ _ H) as (_ & -> & _).
  unfold add_function in H.
  destruct (link_arguments _ _ _ _) as [[tl ns2]|] eqn:E; [|discriminate].
  injection H as _ <-. simpl. apply link_arguments_total_out in E.
  rewrite E. unfold total_out_edges, total_tails.
  rewrite !sum_list_with_app. simpl. lia.
Qed.

(** X12. Every [push_back] on a tail is matched by one on an outgoing
    list: over any sequence of calls, the outgoing lists of all vertices
    grow by as many entries as the tails of all edges, so that in a graph
    built from the empty graph the two totals are equal. *)
Theorem X12_out_edges_match_tails cs : ∀ g rs g',
  add_functions cs g = Some (rs, g') →
  (total_out_edges (nodes g') + total_tails (edges g)
   = total_out_edges (nodes g) + total_tails (edges g'))%nat ∧
  (g = empty_graph →
   total_out_edges (nodes g') = total_tails (edges g')).
Proof.
  assert (∀ g rs g', add_functions cs g = Some (rs, g') →
            (total_out_edges (nodes g') + total_tails (edges g)
             = total_out_edges (nodes g) + total_tails (edges g'))%nat)
    as Hgen.
  { induction cs as [|c cs IH]; intros g rs g' H.
    - simpl in H. now injection H as _ <-.
    - apply add_functions_cons in H as (r & g1 & rs' & H1 & H2 & _).
      apply IH in H2. apply add_function_totals in H1 as [Ho Ht]. lia. }
  intros g rs g' H. split; [now apply (Hgen g rs)|].
  intros ->. specialize (Hgen _ _ _ H). simpl in Hgen.
  unfold total_out_edges, total_tails in *. simpl in Hgen. lia.
Qed.

(** *** Order *)

Lemma add_functions_indexed cs rs g :
  add_functions cs empty_graph = Some (rs, g) →
  in_unsigned_range g → indexed g.
Proof.
  intros H Hrange.
  apply (add_functions_invariant (λ g, indexed g) false)
    with (cs := cs) (g := empty_graph) (rs := rs);
    [|apply indexed_empty|exact H|discriminate|exact Hrange].
  intros F arguments name g0 r g1 HP Hr E _.
  eapply indexed_add_function; eassumption.
Qed.

Lemma add_functions_topological cs rs g :
  add_functions cs empty_graph = Some (rs, g) →
  existing_arguments cs (empty_graph (Matrix := Matrix)) = true →
  in_unsigned_range g → topological g.
Proof.
  intros H Hvalid Hrange.
  apply (add_functions_invariant (λ g, topological g) true)
    with (cs := cs) (g := empty_graph) (rs := rs);
    [|intros i e He; discriminate He|exact H|now intros _|exact Hrange].
  intros F arguments name g0 r g1 HP Hr E Hex.
  eapply topological_add_function; eauto.
Qed.

Lemma StronglySorted_replicate (k : nat) (a : N) :
  StronglySorted N.le (replicate k a).
Proof.
  induction k as [|k IH]; simpl; constructor; [exact IH|].
  apply Forall_forall. intros x [-> _]%elem_of_replicate. reflexivity.
Qed.

Lemma out_edges_ordered_add_function F arguments name g r g' :
  indexed g → out_edges_ordered g →
  add_function F arguments name g = Some (r, g') →
  in_unsigned_range g' →
  Forall (λ ni, ni < N.of_nat (length (nodes g))) arguments →
  out_edges_ordered g'.
Proof.
  intros (Hlen & _ & _) Hord H Hrange Hex v nd' Hnd'.
  destruct (add_function_in_range _ _ _ _ _ _ H Hrange) as (_ & He & _).
  destruct (add_function_nodes _ _ _ _ _ _ _ _ H Hnd') as (nd & Hnd & ->).
  apply add_function_Some in H as (_ & Hedges & _).
  simpl in *. rewrite He in *. rewrite Hedges, length_app. simpl.
  assert (StronglySorted N.le (out_edges nd) ∧
          Forall (λ j, N.of_nat v < j ∧ j < N.of_nat (length (edges g)))
                 (out_edges nd)) as [Hs Hb].
  { apply lookup_app_Some in Hnd as [Hv|[Hv Hnode]].
    - now apply Hord.
    - apply list_lookup_singleton_Some in Hnode as [_ <-]. simpl.
      split; constructor. }
  assert (∀ j, j ∈ replicate (count_occ N.eq_dec arguments (N.of_nat v))
                     (N.of_nat (length (edges g))) →
               j = N.of_nat (length (edges g)) ∧ N.of_nat v < j) as Hnew.
  { intros j [-> Hk]%elem_of_replicate. split; [reflexivity|].
    assert (N.of_nat v ∈ arguments) as Hin.
    { apply list_elem_of_In, (count_occ_In N.eq_dec). lia. }
    rewrite Forall_forall in Hex. specialize (Hex _ Hin). lia. }
  rewrite Forall_forall in Hb. split.
  - apply StronglySorted_app_2; [|exact Hs|apply StronglySorted_replicate].
    intros x1 x2 Hx1 Hx2. destruct (Hnew x2 Hx2) as [-> _].
    specialize (Hb x1 Hx1). lia.
  - apply Forall_app. split; apply Forall_forall; intros j Hj.
    + specialize (Hb j Hj). lia.
    + destruct (Hnew j Hj) as [-> Hv]. lia.
Qed.

Lemma add_functions_ordered cs rs g :
  add_functions cs empty_graph = Some (rs, g) →
  existing_arguments cs (empty_graph (Matrix := Matrix)) = true →
  in_unsigned_range g →
  indexed g ∧ out_edges_ordered g.
Proof.
  intros H Hvalid Hrange.
  apply (add_functions_invariant
           (λ g, indexed g ∧ out_edges_ordered g) true)
    with (cs := cs) (g := empty_graph) (rs := rs);
    [| |exact H|now intros _|exact Hrange].
  - intros F arguments name g0 r g1 [Hi Ho] Hr E Hex. split.
    + eapply indexed_add_function; eassumption.
    + eapply out_edges_ordered_add_function; eauto.
  - split; [apply indexed_empty|]. intros v nd Hnd. discriminate Hnd.
Qed.

(** X13. Outgoing lists are ordered.  In a graph built on the empty graph
    by calls whose arguments exist, the outgoing list of every vertex is in
    ascending order, and each entry names an existing edge whose index is
    greater than the index of the vertex. *)
Theorem X13_out_edges_ordered cs rs g :
  add_functions cs empty_graph = Some (rs, g) →
  existing_arguments cs (empty_graph (Matrix := Matrix)) = true →
  in_unsigned_range g →
  out_edges_ordered g.
Proof. intros H Hv Hr. now apply (add_functions_ordered cs rs g). Qed.

(** X14. The last vertex has no consumer: in a graph built on the empty
    graph by calls whose arguments exist, the outgoing list of the vertex
    created last is empty. *)
Theorem X14_last_vertex_unused cs rs g nd :
  add_functions cs empty_graph = Some (rs, g) →
  existing_arguments cs (empty_graph (Matrix := Matrix)) = true →
  in_unsigned_range g →
  last (nodes g) = Some nd →
  out_edges nd = [].
Proof.
  intros H Hv Hr Hlast.
  destruct (add_functions_ordered cs rs g H Hv Hr) as [(Hlen & _) Hord].
  rewrite last_lookup in Hlast. destruct (Hord _ _ Hlast) as [_ Hb].
  apply lookup_lt_Some in Hlast.
  destruct (out_edges nd) as [|j out]; [reflexivity|].
  apply Forall_cons in Hb as [Hj _]. lia.
Qed.

(** X15. The graph is acyclic.  In a graph built on the empty graph by
    calls whose arguments exist, whenever a vertex [t] feeds a vertex [h]
    through one or more edges, [t] is smaller than [h]; so no vertex
    depends on itself. *)
Theorem X15_acyclic cs rs g :
  add_functions cs empty_graph = Some (rs, g) →
  existing_arguments cs (empty_graph (Matrix := Matrix)) = true →
  in_unsigned_range g →
  (∀ t h, tc (feeds g) t h → t < h) ∧ (∀ v, ¬ tc (feeds g) v v).
Proof.
  intros H Hv Hr.
  pose proof (add_functions_topological cs rs g H Hv Hr) as Htopo.
  assert (∀ t h, feeds g t h → t < h) as Hstep.
  { intros t h (e & [i He]%list_elem_of_lookup & <- & Ht).
    specialize (Htopo i e He). rewrite Forall_forall in Htopo. auto. }
  assert (∀ t h, tc (feeds g) t h → t < h) as Htc.
  { intros t h Hth. induction Hth as [t h Hf|t m h Hf _ IH].
    - now apply Hstep.
    - apply Hstep in Hf. lia. }
  split; [exact Htc|]. intros v Hcycle. apply Htc in Hcycle. lia.
Qed.

(** *** Stored indices *)

(** X16. No stored index dangles.  In a graph built by calls of
    [add_function] on the empty graph (whether or not the arguments
    existed before each call), every head and every tail entry of an edge
    is the index of a vertex, and the defining edge and every outgoing
    entry of a vertex is the index of an edge. *)
Theorem X16_indices_in_bounds cs rs g :
  add_functions cs empty_graph = Some (rs, g) →
  in_unsigned_range g →
  (∀ e, e ∈ edges g →
     head_node e < N.of_nat (length (nodes g)) ∧
     Forall (λ t, t < N.of_nat (length (nodes g))) (tail e)) ∧
  (∀ nd, nd ∈ nodes g →
     in_edge nd < N.of_nat (length (edges g)) ∧
     Forall (λ j, j < N.of_nat (length (edges g))) (out_edges nd)).
Proof.
  intros H Hrange.
  destruct (add_functions_indexed cs rs g H Hrange) as (Hlen & Hhead & Hin).
  destruct (add_functions_link_counts cs rs g H Hrange) as [[Hfw Hbw] _].
  split.
  - intros e [i He]%list_elem_of_lookup. split.
    + rewrite (Hhead i e He). apply lookup_lt_Some in He. lia.
    + apply Forall_forall. intros t Ht.
      destruct (Hfw i e t He Ht) as (nd & Hnd & _).
      apply lookup_lt_Some in Hnd. lia.
  - intros nd [v Hnd]%list_elem_of_lookup. split.
    + rewrite (Hin v nd Hnd). apply lookup_lt_Some in Hnd. lia.
    + apply Forall_forall. intros j Hj.
      destruct (Hbw v nd j Hnd Hj) as (e & He & _).
      apply lookup_lt_Some in He. lia.
Qed.

Lemma topological_existing_arguments cs : ∀ g0 rs g,
  add_functions cs g0 = Some (rs, g) →
  in_unsigned_range g →
  topological g →
  existing_arguments cs g0 = true.
Proof.
  induction cs as [|c cs IH]; intros g0 rs g H Hrange Htopo; [reflexivity|].
  apply add_functions_cons in H as (r & g1 & rs' & H1 & H2 & _).
  simpl. rewrite H1. apply andb_true_iff. split; [|now apply (IH g1 rs' g)].
  pose proof (add_functions_in_range _ _ _ _ H2 Hrange) as Hrange1.
  destruct (add_function_in_range _ _ _ _ _ _ H1 Hrange1) as (Hr & _ & _).
  apply add_function_Some in H1 as (_ & Hedges & _).
  destruct (add_functions_stable _ _ _ _ H2) as [[es Hes] _].
  specialize (Htopo (length (edges g0))
                (mkEdge (call_function c) r (call_arguments c))).
  rewrite Hes, Hedges, <- app_assoc, lookup_app_r, Nat.sub_diag in Htopo by lia.
  specialize (Htopo eq_refl). simpl in Htopo. rewrite Hr in Htopo.
  apply forallb_forall. intros x Hx. apply N.ltb_lt.
  rewrite Forall_forall in Htopo. apply Htopo. now apply list_elem_of_In.
Qed.

(** X17. The existence of the arguments is exactly what topological order
    needs: a sequence of calls that ran on the empty graph leaves a
    topologically ordered graph if and only if every argument of every call
    named a vertex that existed when the call was made. *)
Theorem X17_topological_iff_existing cs rs g :
  add_functions cs empty_graph = Some (rs, g) →
  in_unsigned_range g →
  topological g ↔ existing_arguments cs (empty_graph (Matrix := Matrix)) = true.
Proof.
  intros H Hrange. split.
  - now apply (topological_existing_arguments cs empty_graph rs g).
  - intros Hv. now apply (add_functions_topological cs rs g).
Qed.

End AddFunctionFacts.

(** ** The further properties on concrete graphs *)

Lemma X7_add_function_self_reference_witness :
  ∃ r g', add_function Scalar.Sum [2] "loop" Scalar.two_inputs
          = Some (r, g') ∧ ¬ topological g'.
Proof.
  destruct (X7_add_function_self_reference (Matrix := Z)
              Scalar.Sum [2] "loop" Scalar.two_inputs)
    as (r & g' & e & nd & H & _ & _ & _ & _ & Hn).
  - reflexivity.
  - repeat constructor. vm_compute. discriminate.
  - apply list_elem_of_here.
  - exists r, g'. split; [exact H|exact Hn].
Defined.

Lemma X8_add_functions_dense_indices_witness :
  ∃ (rs : list N) (g : Hypergraph Scalar.Function Z),
    add_functions Scalar.squared_calls empty_graph = Some (rs, g) ∧
    rs = [0; 1; 2] ∧ length (nodes g) = 3%nat.
Proof.
  eexists _, _. split; [reflexivity|].
  destruct (X8_add_functions_dense_indices (Matrix := Z) Scalar.squared_calls _ _ eq_refl)
    as (Hrs & Hn & _).
  - split; vm_compute; discriminate.
  - split; [exact Hrs|exact Hn].
Defined.

Lemma X9_add_functions_record_witness :
  ∃ (rs : list N) (g : Hypergraph Scalar.Function Z),
    add_functions Scalar.squared_calls empty_graph = Some (rs, g) ∧
    variable_name <$> nodes g = ["x"; "u"; "s"]%string ∧
    tail <$> edges g = [[]; [0; 0]; [1; 1]].
Proof.
  eexists _, _. split; [reflexivity|].
  destruct (X9_add_functions_record (Matrix := Z) Scalar.squared_calls _ _ eq_refl)
    as (He & Hn & _).
  - split; vm_compute; discriminate.
  - split; [exact Hn|]. rewrite He. reflexivity.
Defined.

Lemma X10_add_functions_stable_witness :
  ∃ rs g',
    add_functions [mkCall Scalar.Sum [0; 0; 1] "s"] Scalar.two_inputs
    = Some (rs, g') ∧
    ∃ es, edges g' = edges Scalar.two_inputs ++ es.
Proof.
  eexists _, _. split; [reflexivity|].
  exact (proj1 (X10_add_functions_stable (Matrix := Z)
                  [mkCall Scalar.Sum [0; 0; 1] "s"] Scalar.two_inputs
                  _ _ eq_refl)).
Defined.

Lemma X11_link_counts_agree_witness :
  ∃ (rs : list N) (g : Hypergraph Scalar.Function Z),
    add_functions Scalar.squared_calls empty_graph = Some (rs, g) ∧
    link_counts_agree g.
Proof.
  eexists _, _. split; [reflexivity|].
  apply (X11_link_counts_agree (Matrix := Z) Scalar.squared_calls _ _ eq_refl).
  split; vm_compute; discriminate.
Defined.

Lemma X12_out_edges_match_tails_witness :
  ∃ (rs : list N) (g : Hypergraph Scalar.Function Z),
    add_functions Scalar.squared_calls empty_graph = Some (rs, g) ∧
    total_out_edges (nodes g) = total_tails (edges g).
Proof.
  eexists _, _. split; [reflexivity|].
  exact (proj2 (X12_out_edges_match_tails (Matrix := Z) Scalar.squared_calls
                  empty_graph _ _ eq_refl) eq_refl).
Defined.

Lemma X13_out_edges_ordered_witness :
  ∃ (rs : list N) (g : Hypergraph Scalar.Function Z),
    add_functions Scalar.squared_calls empty_graph = Some (rs, g) ∧
    out_edges_ordered g.
Proof.
  eexists _, _. split; [reflexivity|].
  apply (X13_out_edges_ordered (Matrix := Z) Scalar.squared_calls _ _ eq_refl eq_refl).
  split; vm_compute; discriminate.
Defined.

Lemma X14_last_vertex_unused_witness :
  ∃ (rs : list N) (g : Hypergraph Scalar.Function Z) nd,
    add_functions Scalar.squared_calls empty_graph = Some (rs, g) ∧
    last (nodes g) = Some nd ∧ out_edges nd = [].
Proof.
  eexists _, _, _. split; [reflexivity|]. split; [reflexivity|].
  apply (X14_last_vertex_unused (Matrix := Z) Scalar.squared_calls _ _ _ eq_refl eq_refl);
    [split; vm_compute; discriminate | reflexivity].
Defined.

Lemma X15_acyclic_witness :
  ∃ (rs : list N) (g : Hypergraph Scalar.Function Z),
    add_functions Scalar.squared_calls empty_graph = Some (rs, g) ∧
    ∀ v, ¬ tc (feeds g) v v.
Proof.
  eexists _, _. split; [reflexivity|].
  refine (proj2 (X15_acyclic (Matrix := Z) Scalar.squared_calls _ _ eq_refl eq_refl _)).
  split; vm_compute; discriminate.
Defined.

Lemma X16_indices_in_bounds_witness :
  ∃ (rs : list N) (g : Hypergraph Scalar.Function Z),
    add_functions Scalar.squared_calls empty_graph = Some (rs, g) ∧
    ∀ e, e ∈ edges g → Forall (λ t, t < 3) (tail e).
Proof.
  eexists _, _. split; [reflexivity|]. intros e He.
  destruct (X16_indices_in_bounds (Matrix := Z) Scalar.squared_calls
              _ _ eq_refl) as [Hedges _].
  - split; vm_compute; discriminate.
  - exact (proj2 (Hedges e He)).
Defined.

Lemma X17_topological_iff_existing_witness :
  ∃ (rs : list N) (g : Hypergraph Scalar.Function Z),
    add_functions Scalar.squared_calls empty_graph = Some (rs, g) ∧
    topological g.
Proof.
  eexists _, _. split; [reflexivity|].
  apply (X17_topological_iff_existing (Matrix := Z) Scalar.squared_calls
           _ _ eq_refl); [split; vm_compute; discriminate | reflexivity].
Defined.
